(** * Network / interface admission checks of KubeVirt

    A shallow embedding of [pkg/network/admitter/netiface.go] together with
    the library routines it calls, and the properties of the checks.

    Conventions of the embedding:
    - a Go [string] is a sequence of bytes: Rocq's [string] (a list of
      [ascii]);
    - a Go [int] that holds a length or an index is a [Z];
    - a run-time panic (an index or a slice out of range, a pattern that
      [regexp.MustCompile] rejects) is [None] in the [option] monad; the
      Go-level [error] result of a parser is a separate component of the
      returned pair;
    - [map[string]T] is stdpp's [gmap string T], and the set idiom
      [map[string]struct{}] is [gset string];
    - a [for i, x := range xs] loop threads its local state explicitly
      through [range_loop]. *)

From Stdlib Require Import ZArith Ascii String List Lia.
From stdpp Require Import base option list gmap strings pretty.

#[local] Set Warnings "-clear-no-such-hyp".

(** ** Go strings and loops *)

Module gostring.

Definition byte_val (c : ascii) : Z := Z.of_N (N_of_ascii c).

Definition len (s : string) : Z := Z.of_nat (String.length s).

Fixpoint sdrop (n : nat) (s : string) : string :=
  match n, s with
  | O, _ => s
  | S n', String _ s' => sdrop n' s'
  | S _, EmptyString => EmptyString
  end.

Fixpoint stake (n : nat) (s : string) : string :=
  match n, s with
  | S n', String c s' => String c (stake n' s')
  | _, _ => EmptyString
  end.

(** [s[i]]: panics when [i] is out of range. *)
Definition index (s : string) (i : Z) : option ascii :=
  if decide (0 ≤ i)%Z then String.get (Z.to_nat i) s else None.

(** [s[a:]]: panics unless [0 <= a <= len(s)]. *)
Definition slice_from (s : string) (a : Z) : option string :=
  if decide (0 ≤ a ≤ len s)%Z then Some (sdrop (Z.to_nat a) s) else None.

(** [s[a:b]]: panics unless [0 <= a <= b <= len(s)]. *)
Definition slice (s : string) (a b : Z) : option string :=
  if decide (0 ≤ a ∧ a ≤ b ∧ b ≤ len s)%Z
  then Some (stake (Z.to_nat (b - a)) (sdrop (Z.to_nat a) s))
  else None.

(** [s[:b]]. *)
Definition slice_to (s : string) (b : Z) : option string := slice s 0 b.

End gostring.

(** [for i, x := range l { st = body i x st }], started at index [i]. *)
Fixpoint range_loop {A St : Type} (body : Z → A → St → St)
    (i : Z) (l : list A) (st : St) : St :=
  match l with
  | [] => st
  | x :: l' => range_loop body (i + 1) l' (body i x st)
  end.

(** The same loop when the body may panic. *)
Fixpoint range_loopM {A St : Type} (body : Z → A → St → option St)
    (i : Z) (l : list A) (st : St) : option St :=
  match l with
  | [] => Some st
  | x :: l' => st' ← body i x st; range_loopM body (i + 1) l' st'
  end.

(** ** unicode/utf8 and strconv (Go standard library) *)

Module utf8.
Import gostring.
Local Open Scope Z_scope.

Definition RuneError : Z := 0xFFFD.
Definition RuneSelf : Z := 0x80.
Definition MaxRune : Z := 0x10FFFF.

Definition locb : Z := 0x80.
Definition hicb : Z := 0xBF.

(** The entry of the [first] table for a leading byte: [as_] for ASCII,
    [xx] for an invalid byte, otherwise the size in the low bits and the
    index of the accept range of the second byte in the high bits. *)
Definition xx : Z := 0xF1.
Definition as_ : Z := 0xF0.

Definition first (b : Z) : Z :=
  if b <? 0x80 then as_
  else if b <? 0xC2 then xx
  else if b <? 0xE0 then 0x02
  else if b =? 0xE0 then 0x13
  else if b <? 0xED then 0x03
  else if b =? 0xED then 0x23
  else if b <? 0xF0 then 0x03
  else if b =? 0xF0 then 0x34
  else if b <? 0xF4 then 0x04
  else if b =? 0xF4 then 0x44
  else xx.

Definition acceptRanges (i : Z) : Z * Z :=
  if i =? 0 then (locb, hicb)
  else if i =? 1 then (0xA0, hicb)
  else if i =? 2 then (locb, 0x9F)
  else if i =? 3 then (0x90, hicb)
  else if i =? 4 then (locb, 0x8F)
  else (0, 0).

Definition cont (b : Z) : bool := (locb <=? b) && (b <=? hicb).

(** [utf8.DecodeRuneInString]: the rune at the head of [s] and its width
    in bytes. *)
Definition DecodeRuneInString (s : string) : Z * Z :=
  match s with
  | EmptyString => (RuneError, 0)
  | String c0 t =>
      let s0 := byte_val c0 in
      let x := first s0 in
      if as_ <=? x then
        (if x =? as_ then s0 else RuneError, 1)
      else
        let sz := Z.land x 7 in
        let '(lo, hi) := acceptRanges (Z.shiftr x 4) in
        if len s <? sz then (RuneError, 1) else
        match t with
        | EmptyString => (RuneError, 1)
        | String c1 t1 =>
            let s1 := byte_val c1 in
            if (s1 <? lo) || (hi <? s1) then (RuneError, 1) else
            if sz <=? 2 then
              (Z.lor (Z.shiftl (Z.land s0 0x1F) 6) (Z.land s1 0x3F), 2)
            else
            match t1 with
            | EmptyString => (RuneError, 1)
            | String c2 t2 =>
                let s2 := byte_val c2 in
                if negb (cont s2) then (RuneError, 1) else
                if sz <=? 3 then
                  (Z.lor (Z.lor (Z.shiftl (Z.land s0 0x0F) 12)
                                (Z.shiftl (Z.land s1 0x3F) 6))
                         (Z.land s2 0x3F), 3)
                else
                match t2 with
                | EmptyString => (RuneError, 1)
                | String c3 _ =>
                    let s3 := byte_val c3 in
                    if negb (cont s3) then (RuneError, 1) else
                    (Z.lor (Z.lor (Z.lor (Z.shiftl (Z.land s0 0x07) 18)
                                         (Z.shiftl (Z.land s1 0x3F) 12))
                                  (Z.shiftl (Z.land s2 0x3F) 6))
                           (Z.land s3 0x3F), 4)
                end
            end
        end
  end.

Definition ValidRune (r : Z) : bool :=
  ((0 <=? r) && (r <? 0xD800)) || ((0xDFFF <? r) && (r <=? MaxRune)).

Definition byte_of (n : Z) : ascii := ascii_of_N (Z.to_N (n mod 256)).

(** [utf8.AppendRune]: [p] followed by the UTF-8 encoding of [r]. *)
Definition AppendRune (p : string) (r : Z) : string :=
  if (0 <=? r) && (r <=? 0x7F) then p +:+ String (byte_of r) EmptyString
  else if (0 <=? r) && (r <=? 0x7FF) then
    p +:+ String (byte_of (Z.lor 0xC0 (Z.shiftr r 6)))
      (String (byte_of (Z.lor 0x80 (Z.land r 0x3F))) EmptyString)
  else
    let r := if ValidRune r then r else RuneError in
    if r <=? 0xFFFF then
      p +:+ String (byte_of (Z.lor 0xE0 (Z.shiftr r 12)))
        (String (byte_of (Z.lor 0x80 (Z.land (Z.shiftr r 6) 0x3F)))
           (String (byte_of (Z.lor 0x80 (Z.land r 0x3F))) EmptyString))
    else
      p +:+ String (byte_of (Z.lor 0xF0 (Z.shiftr r 18)))
        (String (byte_of (Z.lor 0x80 (Z.land (Z.shiftr r 12) 0x3F)))
           (String (byte_of (Z.lor 0x80 (Z.land (Z.shiftr r 6) 0x3F)))
              (String (byte_of (Z.lor 0x80 (Z.land r 0x3F))) EmptyString))).

End utf8.

Module strconv.
Import gostring.
Local Open Scope Z_scope.

(** [strconv.Itoa]: the decimal form of an [int]. *)
Definition Itoa (i : Z) : string := pretty i.

Definition lowerhex : string := "0123456789abcdef".

(** [lowerhex[i]] for a nibble [i]. *)
Definition hexdigit (i : Z) : ascii :=
  default "0"%char (index lowerhex (Z.land i 0xF)).

(** [\x], [\u] and [\U] escapes: the prefix followed by [n] nibbles of
    [r], most significant first. *)
Fixpoint hexnibbles (n : nat) (r : Z) : string :=
  match n with
  | O => EmptyString
  | S n' => String (hexdigit (Z.shiftr r (4 * Z.of_nat n'))) (hexnibbles n' r)
  end.

Definition dquote : ascii := "034"%char.
Definition backslash : ascii := "092"%char.

Section Tables.
(** The generated tables [isPrint16], [isNotPrint16], [isPrint32] and
    [isNotPrint32] of package strconv, read as a predicate; [IsPrint]
    consults them only for runes above U+00FF. *)
Variable isPrintWide : Z → bool.

(** [strconv.IsPrint]. *)
Definition IsPrint (r : Z) : bool :=
  if r <=? 0xFF then
    if (0x20 <=? r) && (r <=? 0x7E) then true
    else if (0xA1 <=? r) && (r <=? 0xFF) then negb (r =? 0xAD)
    else false
  else isPrintWide r.

(** [appendEscapedRune] with [ASCIIonly = false], [graphicOnly = false]. *)
Definition appendEscapedRune (buf : string) (r : Z) (quote : ascii) : string :=
  if (r =? byte_val quote) || (r =? byte_val backslash) then
    buf +:+ String backslash (String (utf8.byte_of r) EmptyString)
  else if IsPrint r then utf8.AppendRune buf r
  else if r =? 7 then buf +:+ String backslash "a"
  else if r =? 8 then buf +:+ String backslash "b"
  else if r =? 12 then buf +:+ String backslash "f"
  else if r =? 10 then buf +:+ String backslash "n"
  else if r =? 13 then buf +:+ String backslash "r"
  else if r =? 9 then buf +:+ String backslash "t"
  else if r =? 11 then buf +:+ String backslash "v"
  else if (r <? 0x20) || (r =? 0x7F) then
    buf +:+ String backslash "x" +:+ hexnibbles 2 (r mod 256)
  else
    let r' := if utf8.ValidRune r then r else 0xFFFD in
    if negb (utf8.ValidRune r) || (r' <? 0x10000) then
      buf +:+ String backslash "u" +:+ hexnibbles 4 r'
    else
      buf +:+ String backslash "U" +:+ hexnibbles 8 r'.

(** The loop of [appendQuotedWith]:
    [for width := 0; len(s) > 0; s = s[width:]].  [skip] counts the bytes
    of the current rune that are still to be stepped over. *)
Fixpoint quote_loop (skip : nat) (s : string) (quote : ascii) (buf : string)
    : string :=
  match s with
  | EmptyString => buf
  | String c t =>
      match skip with
      | S k => quote_loop k t quote buf
      | O =>
          let r0 := byte_val c in
          let '(r, width) :=
            if utf8.RuneSelf <=? r0 then utf8.DecodeRuneInString s
            else (r0, 1) in
          if (width =? 1) && (r =? utf8.RuneError) then
            quote_loop O t quote
              (buf +:+ String backslash "x" +:+ hexnibbles 2 r0)
          else
            quote_loop (Z.to_nat width - 1) t quote
              (appendEscapedRune buf r quote)
      end
  end.

Definition appendQuotedWith (buf s : string) (quote : ascii) : string :=
  let buf := buf +:+ String quote EmptyString in
  let buf := quote_loop O s quote buf in
  buf +:+ String quote EmptyString.

(** [strconv.Quote], which is what the verb [%q] of package fmt applies
    to a string operand. *)
Definition Quote (s : string) : string := appendQuotedWith EmptyString s dquote.
End Tables.

End strconv.

(** ** k8s.io/apimachinery: field paths and status causes *)

Module k8sfield.

(** One node of a [field.Path]: a [name], or an [index] when the name is
    empty. *)
Record PathNode := mkNode { name : string; index : string }.

(** A [*Path] is the chain of nodes from a node up to its root, following
    the [parent] pointers; the nil pointer is the empty chain. *)
Definition Path : Type := list PathNode.

(** [NewPath(name, moreNames...)]. *)
Definition NewPath (nm : string) (moreNames : list string) : Path :=
  fold_left (λ r anotherName, mkNode anotherName "" :: r) moreNames
    [mkNode nm ""].

(** [r.Root().Parent = p] for a chain [r] that is not nil. *)
Definition setRootParent (r p : Path) : Path := r ++ p.

(** [p.Child(name, moreNames...)]. *)
Definition Child (p : Path) (nm : string) (moreNames : list string) : Path :=
  setRootParent (NewPath nm moreNames) p.

(** [p.Index(index)]. *)
Definition Index (p : Path) (i : Z) : Path :=
  mkNode "" (strconv.Itoa i) :: p.

(** The loop of [String], from the root down to the node. *)
Fixpoint render (p : Path) : string :=
  match p with
  | [] => ""
  | n :: parent =>
      render parent
      +:+ (if bool_decide (parent ≠ []) && negb (String.eqb (name n) "")
           then "." else "")
      +:+ (if negb (String.eqb (name n) "") then name n
           else "[" +:+ index n +:+ "]")
  end.

(** [p.String()]. *)
Definition String (p : Path) : string :=
  match p with
  | [] => "<nil>"
  | _ => render p
  end.

End k8sfield.

Module metav1.

(** The [CauseType] constants used by the checks. *)
Inductive CauseType :=
| CauseTypeFieldValueRequired
| CauseTypeFieldValueInvalid
| CauseTypeFieldValueDuplicate
| CauseTypeFieldValueNotSupported.

Record StatusCause := mkCause {
  Type_ : CauseType;
  Message : string;
  Field : string
}.

#[global] Instance CauseType_eq_dec : EqDecision CauseType.
Proof. solve_decision. Defined.

#[global] Instance StatusCause_eq_dec : EqDecision StatusCause.
Proof. solve_decision. Defined.

End metav1.

(** ** kubevirt.io/api/core/v1: the part of the VMI spec the checks read *)

Module v1.

Module Network.
Record t := mk { Name : string }.
End Network.

Module Interface.
Record t := mk {
  Name : string;
  Model : string;
  MacAddress : string;
  PciAddress : string
}.
End Interface.

Record Devices := mkDevices { Interfaces : list Interface.t }.
Record DomainSpec := mkDomainSpec { Devices_ : Devices }.
Record VirtualMachineInstanceSpec := mkSpec {
  Domain : DomainSpec;
  Networks : list Network.t
}.

(** Modelled from the spec: the constant [v1.VirtIO], declared in the API
    package outside this file; it is the platform's default paravirtualized
    NIC identifier. *)
Definition VirtIO : string := "virtio".

End v1.

(** ** pkg/network/vmispec: the name indexes *)

Module vmispec.

(** Modelled from the spec: [IndexInterfaceSpecByName] lives in package
    vmispec, outside this file.  It builds a lookup set of the interface
    names, keyed by declared name; a later entry with the same name
    overwrites an earlier one. *)
Definition IndexInterfaceSpecByName (interfaces : list v1.Interface.t)
    : gmap string v1.Interface.t :=
  range_loop (λ _ ifaceSpec m, <[v1.Interface.Name ifaceSpec := ifaceSpec]> m)
    0 interfaces ∅.

(** Modelled from the spec: [IndexNetworkSpecByName] lives in package
    vmispec, outside this file.  It builds a lookup set of the network
    names, keyed by declared name. *)
Definition IndexNetworkSpecByName (networks : list v1.Network.t)
    : gmap string v1.Network.t :=
  range_loop (λ _ network m, <[v1.Network.Name network := network]> m)
    0 networks ∅.

End vmispec.

(** ** net.ParseMAC (Go standard library) *)

Module net.
Import gostring.
Local Open Scope Z_scope.

Definition HardwareAddr : Type := list ascii.

Record AddrError := mkAddrError { Err : string; Addr : string }.

(** Bigger than we need, not too big to worry about overflow. *)
Definition big : Z := 0xFFFFFF.

(** The loop of [xtoi] over the bytes still to be read, with the number
    [n] accumulated so far and the count [i] of bytes consumed; the result
    is (number, bytes consumed, success). *)
Fixpoint xtoi_loop (rest : string) (n i : Z) : Z * Z * bool :=
  match rest with
  | EmptyString => if i =? 0 then (0, i, false) else (n, i, true)
  | String c rest' =>
      let b := byte_val c in
      if (byte_val "0" <=? b) && (b <=? byte_val "9") then
        let n := n * 16 + (b - byte_val "0") in
        if big <=? n then (0, i, false) else xtoi_loop rest' n (i + 1)
      else if (byte_val "a" <=? b) && (b <=? byte_val "f") then
        let n := n * 16 + (b - byte_val "a") + 10 in
        if big <=? n then (0, i, false) else xtoi_loop rest' n (i + 1)
      else if (byte_val "A" <=? b) && (b <=? byte_val "F") then
        let n := n * 16 + (b - byte_val "A") + 10 in
        if big <=? n then (0, i, false) else xtoi_loop rest' n (i + 1)
      else if i =? 0 then (0, i, false) else (n, i, true)
  end.

(** [xtoi]: hexadecimal to integer. *)
Definition xtoi (s : string) : Z * Z * bool := xtoi_loop s 0 0.

(** [xtoi2] converts the next two hex digits of [s] into a byte.  If [s]
    is longer than 2 bytes then the third byte must be [e]. *)
Definition xtoi2 (s : string) (e : ascii) : option (ascii * bool) :=
  mismatch ← (if 2 <? len s
              then c ← index s 2; Some (negb (bool_decide (c = e)))
              else Some false);
  if mismatch : bool then Some (zero, false)
  else
    s2 ← slice_to s 2;
    let '(n, ei, ok) := xtoi s2 in
    Some (utf8.byte_of n, ok && (ei =? 2)).

(** [hw[i] = b]: panics when [i] is out of range. *)
Definition set_index (hw : HardwareAddr) (i : Z) (b : ascii)
    : option HardwareAddr :=
  if decide (0 ≤ i < Z.of_nat (length hw)) then Some (<[Z.to_nat i := b]> hw)
  else None.

(** [for x, i := 0, 0; i < n; i++] of the colon or hyphen form; [rem] is
    the number [n - i] of iterations left.  The inner [None] is the jump
    to the [error] label. *)
Fixpoint colon_loop (s : string) (sep : ascii) (rem : nat) (x i : Z)
    (hw : HardwareAddr) : option (option HardwareAddr) :=
  match rem with
  | O => Some (Some hw)
  | S rem' =>
      sub ← slice_from s x;
      '(b, ok) ← xtoi2 sub sep;
      hw' ← set_index hw i b;
      if ok : bool then colon_loop s sep rem' (x + 3) (i + 1) hw'
      else Some None
  end.

(** [for x, i := 0, 0; i < n; i += 2] of the dotted form; [rem] is the
    number of iterations left. *)
Fixpoint dot_loop (s : string) (sep : ascii) (rem : nat) (x i : Z)
    (hw : HardwareAddr) : option (option HardwareAddr) :=
  match rem with
  | O => Some (Some hw)
  | S rem' =>
      sub1 ← slice s x (x + 2);
      '(b1, ok1) ← xtoi2 sub1 zero;
      hw1 ← set_index hw i b1;
      if ok1 : bool then
        sub2 ← slice_from s (x + 2);
        '(b2, ok2) ← xtoi2 sub2 sep;
        hw2 ← set_index hw1 (i + 1) b2;
        if ok2 : bool then dot_loop s sep rem' (x + 5) (i + 2) hw2
        else Some None
      else Some None
  end.

(** The [error] label: a nil address and an [*AddrError]. *)
Definition invalid (s : string) : HardwareAddr * option AddrError :=
  ([], Some (mkAddrError "invalid MAC address" s)).

Definition finish (s : string) (r : option HardwareAddr)
    : HardwareAddr * option AddrError :=
  match r with
  | Some hw => (hw, None)
  | None => invalid s
  end.

(** [net.ParseMAC]: an IEEE 802 MAC-48, EUI-48, EUI-64 or 20-octet
    InfiniBand address in colon, hyphen or dotted form. *)
Definition ParseMAC (s : string) : option (HardwareAddr * option AddrError) :=
  if len s <? 14 then Some (invalid s)
  else
    c2 ← index s 2;
    if bool_decide (c2 = ":"%char) || bool_decide (c2 = "-"%char) then
      if negb (Z.rem (len s + 1) 3 =? 0) then Some (invalid s)
      else
        let n := Z.quot (len s + 1) 3 in
        if negb (n =? 6) && negb (n =? 8) && negb (n =? 20) then
          Some (invalid s)
        else
          r ← colon_loop s c2 (Z.to_nat n) 0 0 (replicate (Z.to_nat n) zero);
          Some (finish s r)
    else
      c4 ← index s 4;
      if bool_decide (c4 = "."%char) then
        if negb (Z.rem (len s + 1) 5 =? 0) then Some (invalid s)
        else
          let n := Z.quot (2 * (len s + 1)) 5 in
          if negb (n =? 6) && negb (n =? 8) && negb (n =? 20) then
            Some (invalid s)
          else
            r ← dot_loop s c4 (Z.to_nat (Z.quot n 2)) 0 0
                   (replicate (Z.to_nat n) zero);
            Some (finish s r)
      else Some (invalid s).

End net.

(** ** regexp (Go standard library), for patterns over ASCII classes *)

Module regexp.
Import gostring.

(** The parsed form of a pattern (package regexp/syntax), without the
    anchors. *)
Inductive Regexp :=
| NoMatch
| EmptyMatch
| CharClass (ranges : list (Z * Z))
| Concat (a b : Regexp)
| Alternate (a b : Regexp)
| Star (a : Regexp)
| Plus (a : Regexp).

(** A compiled pattern: whether it starts with [^], whether it ends with
    [$] (no multi-line flag: beginning and end of the text), and the
    expression between them. *)
Record Compiled := mkCompiled {
  begin_text : bool;
  end_text : bool;
  expr : Regexp
}.

(** Membership of a byte in a class of ASCII ranges.  A byte of 0x80 or
    above is part of a rune of U+0080 or above, or of an invalid sequence
    that decodes as U+FFFD: neither is in an ASCII range. *)
Definition in_class (ranges : list (Z * Z)) (c : ascii) : bool :=
  let b := byte_val c in
  (b <? 0x80)%Z && existsb (λ '(lo, hi), (lo <=? b)%Z && (b <=? hi)%Z) ranges.

Fixpoint nullable (r : Regexp) : bool :=
  match r with
  | NoMatch => false
  | EmptyMatch => true
  | CharClass _ => false
  | Concat a b => nullable a && nullable b
  | Alternate a b => nullable a || nullable b
  | Star _ => true
  | Plus a => nullable a
  end.

(** What is left of [r] once the byte [c] has been read. *)
Fixpoint step (c : ascii) (r : Regexp) : Regexp :=
  match r with
  | NoMatch => NoMatch
  | EmptyMatch => NoMatch
  | CharClass rs => if in_class rs c then EmptyMatch else NoMatch
  | Concat a b =>
      if nullable a then Alternate (Concat (step c a) b) (step c b)
      else Concat (step c a) b
  | Alternate a b => Alternate (step c a) (step c b)
  | Star a => Concat (step c a) (Star a)
  | Plus a => Concat (step c a) (Star a)
  end.

(** Does a match of [r] start at the head of [s]?  With [to_end] the match
    has to reach the end of [s]. *)
Fixpoint match_here (to_end : bool) (r : Regexp) (s : string) : bool :=
  match s with
  | EmptyString => nullable r
  | String c s' =>
      (negb to_end && nullable r) || match_here to_end (step c r) s'
  end.

(** Does a match start at some position of [s]? *)
Fixpoint match_anywhere (to_end : bool) (r : Regexp) (s : string) : bool :=
  match_here to_end r s ||
  match s with
  | EmptyString => false
  | String _ s' => match_anywhere to_end r s'
  end.

(** [re.MatchString(s)]: whether [s] contains any match of [re]. *)
Definition MatchString (re : Compiled) (s : string) : bool :=
  if begin_text re then match_here (end_text re) (expr re) s
  else match_anywhere (end_text re) (expr re) s.

(** *** Parsing of a pattern

    The part of the pattern syntax (package regexp/syntax with the Perl
    flags) made of an optional leading [^], an optional trailing [$] and,
    between them, atoms with an optional postfix star or plus; an atom is an
    ASCII character that is not a metacharacter, or a bracketed class of
    single ASCII characters and ranges of them.  [None] stands for a pattern
    that is in error or outside this part of the syntax. *)

Definition is_meta (c : ascii) : bool :=
  existsb (Ascii.eqb c) (list_ascii_of_string "\.+*?()|[]{}^$").

Definition is_ascii (c : ascii) : bool := (byte_val c <? 0x80)%Z.

(** The items of a class up to the closing bracket, as [parseClass] reads
    them: a closing bracket that is not the first item ends the class; a
    character followed by a hyphen and by a character other than the closing
    bracket is a range; any other character, a hyphen too, stands for
    itself.  The result is the ranges and what follows the class. *)
Fixpoint parseClass (t : string) (first : bool) (acc : list (Z * Z))
    : option (list (Z * Z) * string) :=
  match t with
  | EmptyString => None
  | String c t1 =>
      if Ascii.eqb c "]" && negb first then Some (acc, t1)
      else if Ascii.eqb c "\" || Ascii.eqb c "[" || negb (is_ascii c) then None
      else
        match t1 with
        | String d (String h t3) =>
            if Ascii.eqb d "-" && negb (Ascii.eqb h "]") then
              if Ascii.eqb h "\" || negb (is_ascii h) then None
              else if (byte_val h <? byte_val c)%Z then None
              else parseClass t3 false (acc ++ [(byte_val c, byte_val h)])
            else parseClass t1 false (acc ++ [(byte_val c, byte_val c)])
        | _ => parseClass t1 false (acc ++ [(byte_val c, byte_val c)])
        end
  end.

(** The atom at the head of a pattern and what follows it. *)
Definition parseAtom (c : ascii) (t : string) : option (Regexp * string) :=
  if Ascii.eqb c "[" then
    match t with
    | String "^" _ => None
    | _ => '(ranges, rest) ← parseClass t true []; Some (CharClass ranges, rest)
    end
  else if is_meta c || negb (is_ascii c) then None
  else Some (CharClass [(byte_val c, byte_val c)], t).

(** The items of a pattern, and whether it ends with [$].  [fuel] bounds
    the number of items: the length of the pattern, plus one, is enough. *)
Fixpoint parseItems (fuel : nat) (s : string) : option (list Regexp * bool) :=
  match fuel with
  | O => None
  | S fuel' =>
      match s with
      | EmptyString => Some ([], false)
      | String c t =>
          if Ascii.eqb c "$" then
            match t with EmptyString => Some ([], true) | _ => None end
          else
            '(atom, rest) ← parseAtom c t;
            let '(item, rest) :=
              match rest with
              | String "+" rest' => (Plus atom, rest')
              | String "*" rest' => (Star atom, rest')
              | _ => (atom, rest)
              end in
            '(items, dollar) ← parseItems fuel' rest;
            Some (item :: items, dollar)
      end
  end.

Fixpoint concatOf (items : list Regexp) : Regexp :=
  match items with
  | [] => EmptyMatch
  | [r] => r
  | r :: items' => Concat r (concatOf items')
  end.

(** [regexp.Compile]: the compiled pattern, or [None] for an error. *)
Definition Compile (pattern : string) : option Compiled :=
  let '(bt, body) :=
    match pattern with
    | String "^" t => (true, t)
    | _ => (false, pattern)
    end in
  '(items, dollar) ← parseItems (S (String.length body)) body;
  Some (mkCompiled bt dollar (concatOf items)).

(** [regexp.MustCompile]: it panics when [Compile] returns an error. *)
Definition MustCompile (pattern : string) : option Compiled := Compile pattern.

(** The language of an expression. *)
Inductive matches : Regexp → string → Prop :=
| m_empty : matches EmptyMatch ""
| m_class rs c : in_class rs c = true → matches (CharClass rs) (String c "")
| m_concat a b s1 s2 :
    matches a s1 → matches b s2 → matches (Concat a b) (s1 +:+ s2)
| m_alt_l a b s : matches a s → matches (Alternate a b) s
| m_alt_r a b s : matches b s → matches (Alternate a b) s
| m_star_nil a : matches (Star a) ""
| m_star_cons a s1 s2 :
    matches a s1 → matches (Star a) s2 → matches (Star a) (s1 +:+ s2)
| m_plus a s1 s2 :
    matches a s1 → matches (Star a) s2 → matches (Plus a) (s1 +:+ s2).

End regexp.

(** ** pkg/util/hardware: the PCI address parser *)

Module hwutil.
Import gostring.

Definition is_hex (c : ascii) : bool :=
  regexp.in_class [(48, 57); (97, 102); (65, 70)]%Z c.

(** Modelled from the spec: [ParsePciAddress] lives in package hardware,
    outside this file.  The grammar is domain:bus:device.function, each
    component a fixed-width hexadecimal field; the widths 4, 2, 2 and 1 are
    those of the well-formed address the spec gives.  The result is the
    list of the four fields and an error. *)
Definition ParsePciAddress (pciAddress : string)
    : list string * option string :=
  let fail := ([], Some ("failed to parse pci address " +:+ pciAddress)) in
  match list_ascii_of_string pciAddress with
  | [d0; d1; d2; d3; c1; b0; b1; c2; v0; v1; c3; f0] =>
      if forallb is_hex [d0; d1; d2; d3; b0; b1; v0; v1; f0]
         && bool_decide (c1 = ":"%char) && bool_decide (c2 = ":"%char)
         && bool_decide (c3 = "."%char)
      then ([string_of_list_ascii [d0; d1; d2; d3];
             string_of_list_ascii [b0; b1];
             string_of_list_ascii [v0; v1];
             string_of_list_ascii [f0]], None)
      else fail
  | _ => fail
  end.

End hwutil.

(** ** pkg/network/admitter/netiface.go *)

Module admitter.
Import metav1.

(** [field.Child("networks").Index(i).Child("name").String()]. *)
Definition networkNameField (field : k8sfield.Path) (i : Z) : string :=
  k8sfield.String
    (k8sfield.Child (k8sfield.Index (k8sfield.Child field "networks" []) i)
       "name" []).

(** [field.Child("domain", "devices", "interfaces").Index(idx).Child(leaf).String()]. *)
Definition ifaceField (field : k8sfield.Path) (idx : Z) (leaf : string)
    : string :=
  k8sfield.String
    (k8sfield.Child
       (k8sfield.Index
          (k8sfield.Child field "domain" ["devices"; "interfaces"]) idx)
       leaf []).

(** [fmt.Sprintf("%s '%s' not found.", path, name)]. *)
Definition nameOfTypeNotFoundMessage (path nm : string) : string :=
  path +:+ " '" +:+ nm +:+ "' not found.".

Definition validateNetworksAssignedToInterfaces (field : k8sfield.Path)
    (spec : v1.VirtualMachineInstanceSpec) : list StatusCause :=
  let interfaceSet :=
    vmispec.IndexInterfaceSpecByName
      (v1.Interfaces (v1.Devices_ (v1.Domain spec))) in
  range_loop
    (λ i network causes,
       match interfaceSet !! v1.Network.Name network with
       | None =>
           causes ++
           [mkCause CauseTypeFieldValueRequired
              (nameOfTypeNotFoundMessage (networkNameField field i)
                 (v1.Network.Name network))
              (networkNameField field i)]
       | Some _ => causes
       end)
    0 (v1.Networks spec) [].

Definition validateInterfacesAssignedToNetworks (field : k8sfield.Path)
    (spec : v1.VirtualMachineInstanceSpec) : list StatusCause :=
  let networkSet := vmispec.IndexNetworkSpecByName (v1.Networks spec) in
  range_loop
    (λ idx iface causes,
       match networkSet !! v1.Interface.Name iface with
       | None =>
           causes ++
           [mkCause CauseTypeFieldValueInvalid
              (nameOfTypeNotFoundMessage (ifaceField field idx "name")
                 (v1.Interface.Name iface))
              (ifaceField field idx "name")]
       | Some _ => causes
       end)
    0 (v1.Interfaces (v1.Devices_ (v1.Domain spec))) [].

Section Quoting.
Variable isPrintWide : Z → bool.

(** [fmt.Sprintf("Network with name %q already exists, every network must
    have a unique name", name)]. *)
Definition networkExistsMessage (nm : string) : string :=
  "Network with name " +:+ strconv.Quote isPrintWide nm
  +:+ " already exists, every network must have a unique name".

(** The state of the loop is the pair of [causes] and [networkSet]. *)
Definition validateNetworkNameUnique (field : k8sfield.Path)
    (spec : v1.VirtualMachineInstanceSpec) : list StatusCause :=
  fst
    (range_loop
       (λ i network '(causes, networkSet),
          let causes :=
            if decide (v1.Network.Name network ∈ networkSet) then
              causes ++
              [mkCause CauseTypeFieldValueDuplicate
                 (networkExistsMessage (v1.Network.Name network))
                 (networkNameField field i)]
            else causes in
          (causes, {[v1.Network.Name network]} ∪ networkSet))
       0 (v1.Networks spec) ([], (∅ : gset string))).
End Quoting.

(** The state of the loop is the pair of [causes] and [ifaceSet]. *)
Definition validateInterfaceNameUnique (field : k8sfield.Path)
    (spec : v1.VirtualMachineInstanceSpec) : list StatusCause :=
  fst
    (range_loop
       (λ idx iface '(causes, ifaceSet),
          let causes :=
            if decide (v1.Interface.Name iface ∈ ifaceSet) then
              causes ++
              [mkCause CauseTypeFieldValueDuplicate
                 "Only one interface can be connected to one specific network"
                 (ifaceField field idx "name")]
            else causes in
          (causes, {[v1.Interface.Name iface]} ∪ ifaceSet))
       0 (v1.Interfaces (v1.Devices_ (v1.Domain spec)))
       ([], (∅ : gset string))).

Definition validateInterfaceNameFormat (field : k8sfield.Path) (idx : Z)
    (iface : v1.Interface.t) : option (list StatusCause) :=
  re ← regexp.MustCompile "^[A-Za-z0-9-_]+$";
  let isValid := regexp.MatchString re in
  if negb (isValid (v1.Interface.Name iface)) then
    Some
      [mkCause CauseTypeFieldValueInvalid
         "Network interface name can only contain alphabetical characters, numbers, dashes (-) or underscores (_)"
         (ifaceField field idx "name")]
  else Some [].

Definition validInterfaceModels : gset string :=
  {["e1000"; "e1000e"; "ne2k_pci"; "pcnet"; "rtl8139"; v1.VirtIO]}.

Definition validateInterfaceModel (field : k8sfield.Path) (idx : Z)
    (iface : v1.Interface.t) : list StatusCause :=
  if decide (v1.Interface.Model iface ≠ "") then
    if decide (v1.Interface.Model iface ∈ validInterfaceModels) then []
    else
      [mkCause CauseTypeFieldValueNotSupported
         ("interface " +:+ ifaceField field idx "name" +:+ " uses model "
          +:+ v1.Interface.Model iface +:+ " that is not supported.")
         (ifaceField field idx "model")]
  else [].

(** The cause appended when [net.ParseMAC] returns an error. *)
Definition malformedMacCause (field : k8sfield.Path) (idx : Z)
    (iface : v1.Interface.t) : StatusCause :=
  mkCause CauseTypeFieldValueInvalid
    ("interface " +:+ ifaceField field idx "name"
     +:+ " has malformed MAC address (" +:+ v1.Interface.MacAddress iface
     +:+ ").")
    (ifaceField field idx "macAddress").

(** The cause appended when the parsed address has more than [macLen]
    bytes. *)
Definition tooLongMacCause (field : k8sfield.Path) (idx : Z)
    (iface : v1.Interface.t) : StatusCause :=
  mkCause CauseTypeFieldValueInvalid
    ("interface " +:+ ifaceField field idx "name" +:+ " has MAC address ("
     +:+ v1.Interface.MacAddress iface +:+ ") that is too long.")
    (ifaceField field idx "macAddress").

Definition macLen : nat := 6.

(** The two tests that follow [mac, err := net.ParseMAC(iface.MacAddress)]. *)
Definition checkParsedMac (field : k8sfield.Path) (idx : Z)
    (iface : v1.Interface.t)
    (parsed : net.HardwareAddr * option net.AddrError) : list StatusCause :=
  let '(mac, err) := parsed in
  let causes := [] in
  let causes :=
    match err with
    | Some _ => causes ++ [malformedMacCause field idx iface]
    | None => causes
    end in
  if decide (macLen < length mac)%nat
  then causes ++ [tooLongMacCause field idx iface]
  else causes.

Definition validateMacAddress (field : k8sfield.Path) (idx : Z)
    (iface : v1.Interface.t) : option (list StatusCause) :=
  if decide (v1.Interface.MacAddress iface ≠ "") then
    parsed ← net.ParseMAC (v1.Interface.MacAddress iface);
    Some (checkParsedMac field idx iface parsed)
  else Some [].

Section Pci.
(** [hwutil.ParsePciAddress], the parser of the PCI-address grammar. *)
Variable ParsePciAddress : string → list string * option string.

Definition validatePciAddress (field : k8sfield.Path) (idx : Z)
    (iface : v1.Interface.t) : list StatusCause :=
  if decide (v1.Interface.PciAddress iface ≠ "") then
    match snd (ParsePciAddress (v1.Interface.PciAddress iface)) with
    | Some _ =>
        [mkCause CauseTypeFieldValueInvalid
           ("interface " +:+ ifaceField field idx "name"
            +:+ " has malformed PCI address ("
            +:+ v1.Interface.PciAddress iface +:+ ").")
           (ifaceField field idx "pciAddress")]
    | None => []
    end
  else [].

Definition validateInterfacesFields (field : k8sfield.Path)
    (spec : v1.VirtualMachineInstanceSpec) : option (list StatusCause) :=
  range_loopM
    (λ idx iface causes,
       nameCauses ← validateInterfaceNameFormat field idx iface;
       let causes := causes ++ nameCauses in
       let causes := causes ++ validateInterfaceModel field idx iface in
       macCauses ← validateMacAddress field idx iface;
       let causes := causes ++ macCauses in
       let causes := causes ++ validatePciAddress field idx iface in
       Some causes)
    0 (v1.Interfaces (v1.Devices_ (v1.Domain spec))) [].
End Pci.

End admitter.

(** ** The checks as programs over a Go map

    The runtime of Go starts every [range] over a map at a random place, so
    the order in which a map yields its entries is not fixed.  To state
    what the checks do with their maps, the map operations are made
    explicit: a check is a program that loads from its map, stores into it
    or ranges over it, and the semantics lets a range deliver the entries
    in any order. *)

Module gomap.

Section Prog.
Context {V A : Type}.

(** A program over one map with values in [V] that returns an [A]:
    [v, ok := m[k]], [m[k] = v] and [for k, v := range m]. *)
Inductive Prog : Type :=
| Ret (a : A)
| Load (k : string) (cont : option V → Prog)
| Store (k : string) (v : V) (cont : Prog)
| Range (cont : list (string * V) → Prog).

(** The results a program can return from the map [m]: a range delivers
    the entries of the map in an order of the runtime's choosing. *)
Inductive runs : gmap string V → Prog → A → Prop :=
| runs_ret m a : runs m (Ret a) a
| runs_load m k cont a : runs m (cont (m !! k)) a → runs m (Load k cont) a
| runs_store m k v cont a :
    runs (<[k := v]> m) cont a → runs m (Store k v cont) a
| runs_range m cont order a :
    order ≡ₚ map_to_list m → runs m (cont order) a → runs m (Range cont) a.

(** One run, with the order of every range given by [ord]. *)
Fixpoint eval (ord : gmap string V → list (string * V)) (m : gmap string V)
    (p : Prog) : A :=
  match p with
  | Ret a => a
  | Load k cont => eval ord m (cont (m !! k))
  | Store k v cont => eval ord (<[k := v]> m) cont
  | Range cont => eval ord m (cont (ord m))
  end.

(** A program that never ranges over its map. *)
Inductive rangeFree : Prog → Prop :=
| rangeFree_ret a : rangeFree (Ret a)
| rangeFree_load k cont : (∀ r, rangeFree (cont r)) → rangeFree (Load k cont)
| rangeFree_store k v cont : rangeFree cont → rangeFree (Store k v cont).

End Prog.

Arguments Prog : clear implicits.

(** [for k := range m { keys = append(keys, k) }; return keys]: a program
    that ranges over its map, which no check does. *)
Definition rangeKeys : Prog unit (list string) :=
  Range (λ entries, Ret (fst <$> entries)).

End gomap.

Module admitter_maps.
Import metav1 gomap.

(** The loop of [vmispec.IndexInterfaceSpecByName], which fills
    [interfaceSet], followed by [k]. *)
Fixpoint IndexInterfaceSpecByName {A : Type} (interfaces : list v1.Interface.t)
    (k : Prog v1.Interface.t A) : Prog v1.Interface.t A :=
  match interfaces with
  | [] => k
  | ifaceSpec :: rest =>
      Store (v1.Interface.Name ifaceSpec) ifaceSpec
        (IndexInterfaceSpecByName rest k)
  end.

(** The loop of [vmispec.IndexNetworkSpecByName], which fills [networkSet],
    followed by [k]. *)
Fixpoint IndexNetworkSpecByName {A : Type} (networks : list v1.Network.t)
    (k : Prog v1.Network.t A) : Prog v1.Network.t A :=
  match networks with
  | [] => k
  | network :: rest =>
      Store (v1.Network.Name network) network (IndexNetworkSpecByName rest k)
  end.

(** [for i, network := range spec.Networks] of
    [validateNetworksAssignedToInterfaces]: a range over a slice, in the
    order of the slice; the map is only loaded from. *)
Fixpoint networksLoop (field : k8sfield.Path) (i : Z)
    (networks : list v1.Network.t) (causes : list StatusCause)
    : Prog v1.Interface.t (list StatusCause) :=
  match networks with
  | [] => Ret causes
  | network :: rest =>
      Load (v1.Network.Name network)
        (λ r,
           networksLoop field (i + 1) rest
             match r with
             | None =>
                 causes ++
                 [mkCause CauseTypeFieldValueRequired
                    (admitter.nameOfTypeNotFoundMessage
                       (admitter.networkNameField field i)
                       (v1.Network.Name network))
                    (admitter.networkNameField field i)]
             | Some _ => causes
             end)
  end.

Definition validateNetworksAssignedToInterfaces (field : k8sfield.Path)
    (spec : v1.VirtualMachineInstanceSpec)
    : Prog v1.Interface.t (list StatusCause) :=
  IndexInterfaceSpecByName (v1.Interfaces (v1.Devices_ (v1.Domain spec)))
    (networksLoop field 0 (v1.Networks spec) []).

(** [for idx, iface := range spec.Domain.Devices.Interfaces] of
    [validateInterfacesAssignedToNetworks]. *)
Fixpoint interfacesLoop (field : k8sfield.Path) (idx : Z)
    (interfaces : list v1.Interface.t) (causes : list StatusCause)
    : Prog v1.Network.t (list StatusCause) :=
  match interfaces with
  | [] => Ret causes
  | iface :: rest =>
      Load (v1.Interface.Name iface)
        (λ r,
           interfacesLoop field (idx + 1) rest
             match r with
             | None =>
                 causes ++
                 [mkCause CauseTypeFieldValueInvalid
                    (admitter.nameOfTypeNotFoundMessage
                       (admitter.ifaceField field idx "name")
                       (v1.Interface.Name iface))
                    (admitter.ifaceField field idx "name")]
             | Some _ => causes
             end)
  end.

Definition validateInterfacesAssignedToNetworks (field : k8sfield.Path)
    (spec : v1.VirtualMachineInstanceSpec)
    : Prog v1.Network.t (list StatusCause) :=
  IndexNetworkSpecByName (v1.Networks spec)
    (interfacesLoop field 0 (v1.Interfaces (v1.Devices_ (v1.Domain spec))) []).

Section Quoting.
Variable isPrintWide : Z → bool.

(** The loop of [validateNetworkNameUnique]: a load from [networkSet], then
    a store into it. *)
Fixpoint networkUniqueLoop (field : k8sfield.Path) (i : Z)
    (networks : list v1.Network.t) (causes : list StatusCause)
    : Prog unit (list StatusCause) :=
  match networks with
  | [] => Ret causes
  | network :: rest =>
      Load (v1.Network.Name network)
        (λ r,
           let causes :=
             match r with
             | Some _ =>
                 causes ++
                 [mkCause CauseTypeFieldValueDuplicate
                    (admitter.networkExistsMessage isPrintWide
                       (v1.Network.Name network))
                    (admitter.networkNameField field i)]
             | None => causes
             end in
           Store (v1.Network.Name network) ()
             (networkUniqueLoop field (i + 1) rest causes))
  end.

(** [validateNetworkNameUnique], run from the empty map
    [map[string]struct{}{}]. *)
Definition validateNetworkNameUnique (field : k8sfield.Path)
    (spec : v1.VirtualMachineInstanceSpec) : Prog unit (list StatusCause) :=
  networkUniqueLoop field 0 (v1.Networks spec) [].
End Quoting.

(** The loop of [validateInterfaceNameUnique]. *)
Fixpoint interfaceUniqueLoop (field : k8sfield.Path) (idx : Z)
    (interfaces : list v1.Interface.t) (causes : list StatusCause)
    : Prog unit (list StatusCause) :=
  match interfaces with
  | [] => Ret causes
  | iface :: rest =>
      Load (v1.Interface.Name iface)
        (λ r,
           let causes :=
             match r with
             | Some _ =>
                 causes ++
                 [mkCause CauseTypeFieldValueDuplicate
                    "Only one interface can be connected to one specific network"
                    (admitter.ifaceField field idx "name")]
             | None => causes
             end in
           Store (v1.Interface.Name iface) ()
             (interfaceUniqueLoop field (idx + 1) rest causes))
  end.

(** [validateInterfaceNameUnique], run from the empty map. *)
Definition validateInterfaceNameUnique (field : k8sfield.Path)
    (spec : v1.VirtualMachineInstanceSpec) : Prog unit (list StatusCause) :=
  interfaceUniqueLoop field 0 (v1.Interfaces (v1.Devices_ (v1.Domain spec))) [].

(** The package-level map [validInterfaceModels]. *)
Definition validInterfaceModels : gmap string unit :=
  gset_to_gmap () admitter.validInterfaceModels.

(** [validateInterfaceModel], followed by [k] on the causes it returns: a
    load from [validInterfaceModels]. *)
Definition validateInterfaceModel {A : Type} (field : k8sfield.Path) (idx : Z)
    (iface : v1.Interface.t) (k : list StatusCause → Prog unit A)
    : Prog unit A :=
  if decide (v1.Interface.Model iface ≠ "") then
    Load (v1.Interface.Model iface)
      (λ r,
         match r with
         | Some _ => k []
         | None =>
             k [mkCause CauseTypeFieldValueNotSupported
                  ("interface " +:+ admitter.ifaceField field idx "name"
                   +:+ " uses model " +:+ v1.Interface.Model iface
                   +:+ " that is not supported.")
                  (admitter.ifaceField field idx "model")]
         end)
  else k [].

Section Pci.
Variable ParsePciAddress : string → list string * option string.

(** The loop of [validateInterfacesFields], run from [validInterfaceModels];
    a panic ends the program with [None]. *)
Fixpoint fieldsLoop (field : k8sfield.Path) (idx : Z)
    (interfaces : list v1.Interface.t) (causes : list StatusCause)
    : Prog unit (option (list StatusCause)) :=
  match interfaces with
  | [] => Ret (Some causes)
  | iface :: rest =>
      match admitter.validateInterfaceNameFormat field idx iface with
      | None => Ret None
      | Some nameCauses =>
          let causes := causes ++ nameCauses in
          validateInterfaceModel field idx iface
            (λ modelCauses,
               let causes := causes ++ modelCauses in
               match admitter.validateMacAddress field idx iface with
               | None => Ret None
               | Some macCauses =>
                   let causes := causes ++ macCauses in
                   let causes :=
                     causes ++
                     admitter.validatePciAddress ParsePciAddress field idx
                       iface in
                   fieldsLoop field (idx + 1) rest causes
               end)
      end
  end.

Definition validateInterfacesFields (field : k8sfield.Path)
    (spec : v1.VirtualMachineInstanceSpec)
    : Prog unit (option (list StatusCause)) :=
  fieldsLoop field 0 (v1.Interfaces (v1.Devices_ (v1.Domain spec))) [].
End Pci.

End admitter_maps.

(** ** Vocabulary of the statements *)

(** The elements of [l] paired with their positions, counted from [i]. *)
Fixpoint indexed_from {A : Type} (i : Z) (l : list A) : list (Z * A) :=
  match l with
  | [] => []
  | x :: l' => (i, x) :: indexed_from (i + 1) l'
  end.

Definition indexed {A : Type} (l : list A) : list (Z * A) := indexed_from 0 l.

(** The positions of [names] whose name already occurs at an earlier
    position, in list order. *)
Definition repeats (names : list string) : list (Z * string) :=
  filter (λ p, p.2 ∈ take (Z.to_nat p.1) names) (indexed names).

(** How many times [n] occurs in [names]. *)
Definition occurrences (n : string) (names : list string) : nat :=
  length (filter (λ x, x = n) names).

Definition networkNames (spec : v1.VirtualMachineInstanceSpec) : list string :=
  v1.Network.Name <$> v1.Networks spec.

Definition specInterfaces (spec : v1.VirtualMachineInstanceSpec)
    : list v1.Interface.t :=
  v1.Interfaces (v1.Devices_ (v1.Domain spec)).

Definition interfaceNames (spec : v1.VirtualMachineInstanceSpec) : list string :=
  v1.Interface.Name <$> specInterfaces spec.

(** The prefix a non-nil [field] contributes to the path of a child. *)
Definition prefixOf (field : k8sfield.Path) : string :=
  match field with
  | [] => ""
  | _ => k8sfield.render field +:+ "."
  end.

(** A printable ASCII byte other than the double quote and the backslash:
    [strconv.Quote] copies such a byte unchanged. *)
Definition plainChar (c : ascii) : bool :=
  let b := gostring.byte_val c in
  ((0x20 <=? b) && (b <=? 0x7E) && negb (b =? 0x22) && negb (b =? 0x5C))%Z.

Fixpoint plainName (s : string) : bool :=
  match s with
  | EmptyString => true
  | String c s' => plainChar c && plainName s'
  end.

(** [s] between two double quotes. *)
Definition doubleQuoted (s : string) : string :=
  String strconv.dquote (s +:+ String strconv.dquote "").

(** What the pattern of the code compiles to: anchored at both ends, one
    or more characters of the class A-Z, a-z, 0-9, hyphen, underscore. *)
Definition interfaceNamePattern : regexp.Compiled :=
  regexp.mkCompiled true true
    (regexp.Plus
       (regexp.CharClass [(65, 90); (97, 122); (48, 57); (45, 45); (95, 95)]%Z)).

(** What the pattern of the specification compiles to: the class is
    written A-Z, a-z, 0-9, underscore, hyphen. *)
Definition claimedNamePattern : regexp.Compiled :=
  regexp.mkCompiled true true
    (regexp.Plus
       (regexp.CharClass [(65, 90); (97, 122); (48, 57); (95, 95); (45, 45)]%Z)).

(** [s] as a whole is a match of the expression of [re]. *)
Definition fullMatch (re : regexp.Compiled) (s : string) : Prop :=
  regexp.matches (regexp.expr re) s.

(** A letter, a digit, an underscore or a hyphen. *)
Definition nameChar (c : ascii) : bool :=
  let b := gostring.byte_val c in
  (((65 <=? b) && (b <=? 90)) || ((97 <=? b) && (b <=? 122))
   || ((48 <=? b) && (b <=? 57)) || (b =? 95) || (b =? 45))%Z.

Fixpoint allChars (P : ascii → bool) (s : string) : bool :=
  match s with
  | EmptyString => true
  | String c s' => P c && allChars P s'
  end.

(** The one cause of the name-syntax check. *)
Definition nameFormatCause (field : k8sfield.Path) (idx : Z) : metav1.StatusCause :=
  metav1.mkCause metav1.CauseTypeFieldValueInvalid
    "Network interface name can only contain alphabetical characters, numbers, dashes (-) or underscores (_)"
    (admitter.ifaceField field idx "name").

(** The whitelist of NIC models, as a list. *)
Definition supportedModels : list string :=
  ["e1000"; "e1000e"; "ne2k_pci"; "pcnet"; "rtl8139"; v1.VirtIO].

(** The one cause of the model check. *)
Definition modelCause (field : k8sfield.Path) (idx : Z) (iface : v1.Interface.t)
    : metav1.StatusCause :=
  metav1.mkCause metav1.CauseTypeFieldValueNotSupported
    ("interface " +:+ admitter.ifaceField field idx "name" +:+ " uses model "
     +:+ v1.Interface.Model iface +:+ " that is not supported.")
    (admitter.ifaceField field idx "model").

(** The one cause of the PCI address check. *)
Definition pciCause (field : k8sfield.Path) (idx : Z) (iface : v1.Interface.t)
    : metav1.StatusCause :=
  metav1.mkCause metav1.CauseTypeFieldValueInvalid
    ("interface " +:+ admitter.ifaceField field idx "name"
     +:+ " has malformed PCI address (" +:+ v1.Interface.PciAddress iface
     +:+ ").")
    (admitter.ifaceField field idx "pciAddress").

(** The causes of one interface: the four sub-checks in the order name
    syntax, model, MAC address, PCI address. *)
Definition interfaceCauses
    (ParsePciAddress : string → list string * option string)
    (field : k8sfield.Path) (p : Z * v1.Interface.t)
    : option (list metav1.StatusCause) :=
  nameCauses ← admitter.validateInterfaceNameFormat field p.1 p.2;
  macCauses ← admitter.validateMacAddress field p.1 p.2;
  Some (nameCauses
        ++ admitter.validateInterfaceModel field p.1 p.2
        ++ macCauses
        ++ admitter.validatePciAddress ParsePciAddress field p.1 p.2).

(** *** Concrete specs used in the examples *)

Definition plainInterface (nm : string) : v1.Interface.t :=
  v1.Interface.mk nm "" "" "".

Definition mkVMISpec (networks : list string) (ifaces : list v1.Interface.t)
    : v1.VirtualMachineInstanceSpec :=
  v1.mkSpec (v1.mkDomainSpec (v1.mkDevices ifaces)) (v1.Network.mk <$> networks).

(** One network and two interfaces, all named net1. *)
Definition scenarioSpec : v1.VirtualMachineInstanceSpec :=
  mkVMISpec ["net1"] [plainInterface "net1"; plainInterface "net1"].

(** The prefix built by [k8sfield.NewPath("spec")]. *)
Definition specPath : k8sfield.Path := k8sfield.NewPath "spec" [].

(** Two networks named net1. *)
Definition dupNetworksSpec : v1.VirtualMachineInstanceSpec :=
  mkVMISpec ["net1"; "net1"] [plainInterface "net1"].

(** Interfaces that differ in the MAC address only. *)
Definition macInterface (mac : string) : v1.Interface.t :=
  v1.Interface.mk "net1" "" mac "".

(** An interface on which all four sub-checks fail. *)
Definition badInterface : v1.Interface.t :=
  v1.Interface.mk "eth 0" "banana" "not-a-mac" "zz:00:00.0".

Definition badSpec : v1.VirtualMachineInstanceSpec :=
  mkVMISpec ["net1"] [plainInterface "net1"; badInterface].

(** The spec with no network and no interface. *)
Definition emptySpec : v1.VirtualMachineInstanceSpec := mkVMISpec [] [].


(** Networks net1, net2, net1 and three interfaces, the last two with
    faulty fields. *)
Definition sampleSpec : v1.VirtualMachineInstanceSpec :=
  mkVMISpec ["net1"; "net2"; "net1"]
    [plainInterface "net1";
     v1.Interface.mk "net1" "banana" "not-a-mac" "zz:00:00.0";
     v1.Interface.mk "eth 0" "virtio" "02:00:5e:10:00:00:00:01" "0000:00:1f.2"].

(** The repeats among [suf] when the names of [pre] come before it in the
    list: [repeats names] is [repeats_after [] names]. *)
Definition repeats_after (pre suf : list string) : list (Z * string) :=
  filter (λ p, p.2 ∈ take (Z.to_nat p.1) (pre ++ suf))
    (indexed_from (Z.of_nat (length pre)) suf).

(** An interface on which each of the four field checks passes, for a given
    parser of PCI addresses. *)
Definition passesFieldChecks
    (ParsePciAddress : string → list string * option string)
    (iface : v1.Interface.t) : Prop :=
  (v1.Interface.Name iface ≠ "" ∧
   allChars nameChar (v1.Interface.Name iface) = true)
  ∧ (v1.Interface.Model iface = "" ∨ v1.Interface.Model iface ∈ supportedModels)
  ∧ (v1.Interface.MacAddress iface = "" ∨
     ∃ hw, net.ParseMAC (v1.Interface.MacAddress iface) = Some (hw, None) ∧
           length hw = 6%nat)
  ∧ (v1.Interface.PciAddress iface = "" ∨
     snd (ParsePciAddress (v1.Interface.PciAddress iface)) = None).

(** The last names of the paths the field-format check reports. *)
Definition fieldLeaves : list string :=
  ["name"; "model"; "macAddress"; "pciAddress"].

(** The last byte of a text. *)
Fixpoint last_char (s : string) : option ascii :=
  match s with
  | EmptyString => None
  | String c EmptyString => Some c
  | String _ s' => last_char s'
  end.

(** The path of the networks[i].name entry under a prefix, as text. *)
Definition networkPath (field : k8sfield.Path) (i : Z) : string :=
  prefixOf field +:+ "networks[" +:+ strconv.Itoa i +:+ "].name".

(** The path of a leaf of the interfaces[i] entry under a prefix, as text. *)
Definition interfacePath (field : k8sfield.Path) (i : Z) (leaf : string)
    : string :=
  prefixOf field +:+ "domain.devices.interfaces[" +:+ strconv.Itoa i
  +:+ "]." +:+ leaf.

(** One network and one interface, both named net1. *)
Definition matchedSpec : v1.VirtualMachineInstanceSpec :=
  mkVMISpec ["net1"] [plainInterface "net1"].

(** Networks net1 and net2 and one interface net1: net2 has no interface. *)
Definition danglingSpec : v1.VirtualMachineInstanceSpec :=
  mkVMISpec ["net1"; "net2"] [plainInterface "net1"].

(** [danglingSpec] with an interface for net2 added. *)
Definition repairedSpec : v1.VirtualMachineInstanceSpec :=
  mkVMISpec ["net1"; "net2"] [plainInterface "net1"; plainInterface "net2"].

(** A map with the two keys a and b. *)
Definition twoKeys : gmap string unit := <["a" := ()]> (<["b" := ()]> ∅).

(** ** Properties *)

Section RangeLoop.
Context {A B : Type}.

Lemma range_loop_ext {St} (f g : Z → A → St → St) i (l : list A) st :
  (∀ j x s, f j x s = g j x s) → range_loop f i l st = range_loop g i l st.
Proof.
  intros Hfg. revert i st.
  induction l as [|x l IH]; intros i st; simpl; [done|].
  by rewrite Hfg, IH.
Qed.

(** A loop that appends one element for the entries that pass a test. *)
Lemma range_loop_filter (P : Z → A → bool) (f : Z → A → B) i l acc :
  range_loop (λ j x causes, if P j x then causes ++ [f j x] else causes) i l acc
  = acc ++ ((λ p, f p.1 p.2) <$> filter (λ p, P p.1 p.2 = true) (indexed_from i l)).
Proof.
  revert i acc.
  induction l as [|x l IH]; intros i acc; simpl.
  - by rewrite app_nil_r.
  - rewrite IH, filter_cons. simpl.
    destruct (P i x) eqn:HP.
    + rewrite decide_True by done. simpl. by rewrite <- app_assoc.
    + rewrite decide_False by (by intros ?). done.
Qed.

Lemma filter_ext_elem (P Q : A → Prop)
    `{∀ p, Decision (P p)} `{∀ p, Decision (Q p)} (l : list A) :
  (∀ p, p ∈ l → P p ↔ Q p) → filter P l = filter Q l.
Proof.
  induction l as [|x l IH]; intros HPQ; [done|].
  assert (P x ↔ Q x) as Hx by (apply HPQ; left).
  rewrite !filter_cons, IH.
  - destruct (decide (P x)), (decide (Q x)); tauto || done.
  - intros p Hp. apply HPQ. by right.
Qed.

Lemma indexed_from_snd i (l : list A) : (indexed_from i l).*2 = l.
Proof.
  revert i. induction l as [|x l IH]; intros i; simpl; [done|].
  by rewrite IH.
Qed.

Lemma elem_of_indexed_from i (l : list A) p :
  p ∈ indexed_from i l ↔
  (i ≤ p.1)%Z ∧ l !! Z.to_nat (p.1 - i) = Some p.2.
Proof.
  revert i. induction l as [|x l IH]; intros i; simpl.
  - split; [by intros ?%elem_of_nil|by intros [_ ?]].
  - rewrite elem_of_cons, IH. destruct p as [j y]; simpl. split.
    + intros [[= -> ->]|[Hle Hl]].
      * split; [lia|]. by replace (i - i)%Z with 0%Z by lia.
      * split; [lia|].
        replace (Z.to_nat (j - i)) with (S (Z.to_nat (j - (i + 1)))) by lia.
        done.
    + intros [Hle Hl]. destruct (decide (j = i)) as [->|Hne].
      * left. replace (i - i)%Z with 0%Z in Hl by lia.
        simpl in Hl. by simplify_eq.
      * right. split; [lia|].
        replace (Z.to_nat (j - i)) with (S (Z.to_nat (j - (i + 1)))) in Hl by lia.
        done.
Qed.
End RangeLoop.

(** *** The name indexes hold exactly the declared names *)

Lemma index_loop_lookup {A : Type} (key : A → string) i (l : list A)
    (m : gmap string A) k :
  is_Some (range_loop (λ _ x m, <[key x := x]> m) i l m !! k)
  ↔ is_Some (m !! k) ∨ k ∈ key <$> l.
Proof.
  revert i m. induction l as [|x l IH]; intros i m; simpl.
  - rewrite elem_of_nil. tauto.
  - rewrite IH, elem_of_cons, lookup_insert_is_Some.
    destruct (decide (key x = k)); intuition congruence.
Qed.

Lemma IndexInterfaceSpecByName_lookup ifaces k :
  is_Some (vmispec.IndexInterfaceSpecByName ifaces !! k)
  ↔ k ∈ v1.Interface.Name <$> ifaces.
Proof.
  unfold vmispec.IndexInterfaceSpecByName.
  rewrite index_loop_lookup, lookup_empty, is_Some_alt. tauto.
Qed.

Lemma IndexNetworkSpecByName_lookup networks k :
  is_Some (vmispec.IndexNetworkSpecByName networks !! k)
  ↔ k ∈ v1.Network.Name <$> networks.
Proof.
  unfold vmispec.IndexNetworkSpecByName.
  rewrite index_loop_lookup, lookup_empty, is_Some_alt. tauto.
Qed.

(** A lookup that is only tested for presence. *)
Lemma lookup_presence {A B : Type} (o : option A) (x y : B) :
  match o with None => x | Some _ => y end
  = if negb (bool_decide (is_Some o)) then x else y.
Proof. by destruct o. Qed.

Lemma validateNetworksAssignedToInterfaces_filter field spec :
  admitter.validateNetworksAssignedToInterfaces field spec
  = (λ p, metav1.mkCause metav1.CauseTypeFieldValueRequired
            (admitter.networkNameField field p.1 +:+ " '"
             +:+ v1.Network.Name p.2 +:+ "' not found.")
            (admitter.networkNameField field p.1))
    <$> filter (λ p, v1.Network.Name p.2 ∉ interfaceNames spec)
          (indexed (v1.Networks spec)).
Proof.
  unfold admitter.validateNetworksAssignedToInterfaces.
  erewrite range_loop_ext; [|intros; apply lookup_presence].
  rewrite (range_loop_filter
    (λ _ network, negb (bool_decide (is_Some
       (vmispec.IndexInterfaceSpecByName (specInterfaces spec)
          !! v1.Network.Name network))))
    (λ i network, metav1.mkCause metav1.CauseTypeFieldValueRequired
       (admitter.nameOfTypeNotFoundMessage (admitter.networkNameField field i)
          (v1.Network.Name network))
       (admitter.networkNameField field i))).
  simpl. f_equal. apply filter_ext_elem. intros p _.
  rewrite negb_true_iff, bool_decide_eq_false, IndexInterfaceSpecByName_lookup.
  done.
Qed.

Lemma validateInterfacesAssignedToNetworks_filter field spec :
  admitter.validateInterfacesAssignedToNetworks field spec
  = (λ p, metav1.mkCause metav1.CauseTypeFieldValueInvalid
            (admitter.ifaceField field p.1 "name" +:+ " '"
             +:+ v1.Interface.Name p.2 +:+ "' not found.")
            (admitter.ifaceField field p.1 "name"))
    <$> filter (λ p, v1.Interface.Name p.2 ∉ networkNames spec)
          (indexed (specInterfaces spec)).
Proof.
  unfold admitter.validateInterfacesAssignedToNetworks.
  erewrite range_loop_ext; [|intros; apply lookup_presence].
  rewrite (range_loop_filter
    (λ _ iface, negb (bool_decide (is_Some
       (vmispec.IndexNetworkSpecByName (v1.Networks spec)
          !! v1.Interface.Name iface))))
    (λ i iface, metav1.mkCause metav1.CauseTypeFieldValueInvalid
       (admitter.nameOfTypeNotFoundMessage (admitter.ifaceField field i "name")
          (v1.Interface.Name iface))
       (admitter.ifaceField field i "name"))).
  simpl. f_equal. apply filter_ext_elem. intros p _.
  rewrite negb_true_iff, bool_decide_eq_false, IndexNetworkSpecByName_lookup.
  done.
Qed.

Lemma filter_none {A : Type} (P : A → Prop) `{∀ x, Decision (P x)} (l : list A) :
  (∀ x, x ∈ l → ¬ P x) → filter P l = [].
Proof.
  induction l as [|x l IH]; intros Hl; [done|].
  rewrite filter_cons, decide_False by (apply Hl; left).
  apply IH. intros y Hy. apply Hl. by right.
Qed.

(** *** Rendering of the field paths *)

Lemma sapp_cons (x : ascii) (a b : string) :
  String x a +:+ b = String x (a +:+ b).
Proof. reflexivity. Qed.

Lemma sapp_assoc (a b c : string) : (a +:+ b) +:+ c = a +:+ (b +:+ c).
Proof.
  induction a as [|x a IH]; [done|].
  by rewrite !sapp_cons, IH.
Qed.

Lemma length_sapp (a b : string) :
  String.length (a +:+ b) = (String.length a + String.length b)%nat.
Proof.
  induction a as [|x a IH]; [done|].
  rewrite sapp_cons. simpl. by rewrite IH.
Qed.

Lemma sapp_nil_r (a : string) : a +:+ "" = a.
Proof.
  induction a as [|x a IH]; [done|].
  by rewrite sapp_cons, IH.
Qed.

Lemma render_name nm idx p :
  nm ≠ "" → p ≠ [] →
  k8sfield.render (k8sfield.mkNode nm idx :: p) = k8sfield.render p +:+ "." +:+ nm.
Proof.
  intros Hnm Hp. cbn [k8sfield.render k8sfield.name].
  apply String.eqb_neq in Hnm. rewrite Hnm.
  by rewrite bool_decide_eq_true_2.
Qed.

Lemma render_name_root nm idx :
  nm ≠ "" → k8sfield.render [k8sfield.mkNode nm idx] = nm.
Proof.
  intros Hnm. cbn [k8sfield.render k8sfield.name].
  apply String.eqb_neq in Hnm. by rewrite Hnm.
Qed.

Lemma render_index i p :
  k8sfield.render (k8sfield.mkNode "" i :: p)
  = k8sfield.render p +:+ "[" +:+ i +:+ "]".
Proof.
  cbn [k8sfield.render k8sfield.name k8sfield.index].
  by rewrite andb_false_r.
Qed.

Lemma Child_one p nm : k8sfield.Child p nm [] = k8sfield.mkNode nm "" :: p.
Proof. reflexivity. Qed.

Lemma Child_three p a b c :
  k8sfield.Child p a [b; c]
  = k8sfield.mkNode c "" :: k8sfield.mkNode b "" :: k8sfield.mkNode a "" :: p.
Proof. reflexivity. Qed.

Lemma networkNameField_render field i :
  admitter.networkNameField field i
  = prefixOf field +:+ "networks[" +:+ strconv.Itoa i +:+ "].name".
Proof.
  unfold admitter.networkNameField, k8sfield.Index, k8sfield.String.
  rewrite !Child_one, render_name, render_index by done.
  destruct field as [|n field].
  - rewrite render_name_root by done. unfold prefixOf.
    rewrite !sapp_assoc. reflexivity.
  - rewrite render_name by done. unfold prefixOf.
    rewrite !sapp_assoc. reflexivity.
Qed.

Lemma ifaceField_render field idx leaf :
  leaf ≠ "" →
  admitter.ifaceField field idx leaf
  = prefixOf field +:+ "domain.devices.interfaces[" +:+ strconv.Itoa idx
    +:+ "]." +:+ leaf.
Proof.
  intros Hleaf.
  unfold admitter.ifaceField, k8sfield.Index, k8sfield.String.
  rewrite Child_one, Child_three, render_name, render_index by done.
  rewrite !(render_name _ _ (_ :: _)) by done.
  destruct field as [|n field].
  - rewrite render_name_root by done. unfold prefixOf.
    rewrite !sapp_assoc. reflexivity.
  - rewrite render_name by done. unfold prefixOf.
    rewrite !sapp_assoc. reflexivity.
Qed.

(** *** Cross-reference checks *)

(** C1.  When every network name is an interface name and every interface
    name is a network name, both cross-reference checks return the empty
    list.  In general [validateNetworksAssignedToInterfaces] returns, in
    the order of the network list, exactly one cause of type
    FieldValueRequired for each network whose name is not an interface name,
    with the networks[i].name path as field and the message made of that
    path, the quoted name and the words not found; and
    [validateInterfacesAssignedToNetworks] returns, in the order of the
    interface list, one cause of type FieldValueInvalid for each interface
    whose name is not a network name. *)
Theorem C1_cross_reference (field : k8sfield.Path)
    (spec : v1.VirtualMachineInstanceSpec) :
  ((∀ n, n ∈ networkNames spec → n ∈ interfaceNames spec) ∧
   (∀ n, n ∈ interfaceNames spec → n ∈ networkNames spec) →
   admitter.validateNetworksAssignedToInterfaces field spec = [] ∧
   admitter.validateInterfacesAssignedToNetworks field spec = [])
  ∧ admitter.validateNetworksAssignedToInterfaces field spec
    = (λ p, metav1.mkCause metav1.CauseTypeFieldValueRequired
              (admitter.networkNameField field p.1 +:+ " '"
               +:+ v1.Network.Name p.2 +:+ "' not found.")
              (admitter.networkNameField field p.1))
      <$> filter (λ p, v1.Network.Name p.2 ∉ interfaceNames spec)
            (indexed (v1.Networks spec))
  ∧ admitter.validateInterfacesAssignedToNetworks field spec
    = (λ p, metav1.mkCause metav1.CauseTypeFieldValueInvalid
              (admitter.ifaceField field p.1 "name" +:+ " '"
               +:+ v1.Interface.Name p.2 +:+ "' not found.")
              (admitter.ifaceField field p.1 "name"))
      <$> filter (λ p, v1.Interface.Name p.2 ∉ networkNames spec)
            (indexed (specInterfaces spec))
  ∧ (∀ i, admitter.networkNameField field i
          = prefixOf field +:+ "networks[" +:+ strconv.Itoa i +:+ "].name")
  ∧ (∀ i, admitter.ifaceField field i "name"
          = prefixOf field +:+ "domain.devices.interfaces[" +:+ strconv.Itoa i
            +:+ "].name").
Proof.
  split; [|split; [|split; [|split]]].
  - intros [Hnet Hif].
    rewrite validateNetworksAssignedToInterfaces_filter,
      validateInterfacesAssignedToNetworks_filter.
    rewrite !filter_none; [done| |].
    + intros [i x] Hx Hnot. apply Hnot, Hif. simpl.
      apply list_elem_of_fmap. exists x. split; [done|].
      apply (list_elem_of_fmap_2 snd) in Hx.
      unfold indexed in Hx. by rewrite indexed_from_snd in Hx.
    + intros [i x] Hx Hnot. apply Hnot, Hnet. simpl.
      apply list_elem_of_fmap. exists x. split; [done|].
      apply (list_elem_of_fmap_2 snd) in Hx.
      unfold indexed in Hx. by rewrite indexed_from_snd in Hx.
  - apply validateNetworksAssignedToInterfaces_filter.
  - apply validateInterfacesAssignedToNetworks_filter.
  - apply networkNameField_render.
  - intros i. by apply ifaceField_render.
Qed.

Lemma C1_cross_reference_witness :
  admitter.validateNetworksAssignedToInterfaces specPath scenarioSpec = [] ∧
  admitter.validateInterfacesAssignedToNetworks specPath scenarioSpec = [].
Proof.
  apply (proj1 (C1_cross_reference specPath scenarioSpec)).
  split; intros n; cbn; intros Hn.
  - apply list_elem_of_singleton in Hn as ->. left.
  - apply list_elem_of_singleton.
    apply elem_of_cons in Hn as [Hn|Hn]; [done|].
    by apply list_elem_of_singleton in Hn.
Defined.

(** *** Uniqueness checks *)

(** The loop shared by the two uniqueness checks, run on the suffix [suf]
    of a list whose prefix [pre] has been seen. *)
Lemma unique_loop {A : Type} (key : A → string)
    (mk : Z → string → metav1.StatusCause) (pre suf : list A) acc :
  range_loop
    (λ i x '(causes, seen),
       (if decide (key x ∈ seen) then causes ++ [mk i (key x)] else causes,
        {[key x]} ∪ seen))
    (Z.of_nat (length pre)) suf (acc, list_to_set (key <$> pre) : gset string)
  = (acc ++ ((λ p, mk p.1 p.2)
             <$> filter (λ p, p.2 ∈ take (Z.to_nat p.1) (key <$> (pre ++ suf)))
                   (indexed_from (Z.of_nat (length pre)) (key <$> suf))),
     list_to_set (key <$> (pre ++ suf))).
Proof.
  revert pre acc. induction suf as [|x suf IH]; intros pre acc.
  - simpl. by rewrite !app_nil_r.
  - cbn [range_loop fmap list_fmap indexed_from].
    assert ({[key x]} ∪ list_to_set (key <$> pre)
            = (list_to_set (key <$> (pre ++ [x])) : gset string)) as ->.
    { rewrite fmap_app, list_to_set_app_L. simpl. set_solver. }
    replace (Z.of_nat (length pre) + 1)%Z
      with (Z.of_nat (length (pre ++ [x]))) by (rewrite length_app; simpl; lia).
    rewrite IH, <- (app_assoc pre [x] suf). simpl. f_equal.
    rewrite filter_cons. simpl.
    rewrite Nat2Z.id, fmap_app, <- (length_fmap key pre), take_app_length.
    destruct (decide (key x ∈ (list_to_set (key <$> pre) : gset string)))
      as [Hin|Hin]; rewrite elem_of_list_to_set in Hin.
    + rewrite decide_True by done. simpl. by rewrite <- app_assoc.
    + by rewrite decide_False by done.
Qed.

Lemma unique_loop_repeats {A : Type} (key : A → string)
    (mk : Z → string → metav1.StatusCause) (l : list A) :
  fst (range_loop
         (λ i x '(causes, seen),
            (if decide (key x ∈ seen) then causes ++ [mk i (key x)] else causes,
             {[key x]} ∪ seen))
         0 l ([], ∅ : gset string))
  = (λ p, mk p.1 p.2) <$> repeats (key <$> l).
Proof.
  exact (f_equal fst (unique_loop key mk [] l [])).
Qed.

(** Among the repeats of a list, those of a name [n] are all its
    occurrences but the first. *)
Lemma repeats_count_from (n : string) (pre suf : list string) :
  length (filter (λ p, p.2 = n)
            (filter (λ p, p.2 ∈ take (Z.to_nat p.1) (pre ++ suf))
               (indexed_from (Z.of_nat (length pre)) suf)))
  = (occurrences n suf - (if decide (n ∈ pre) then 0 else 1))%nat.
Proof.
  revert pre. induction suf as [|x suf IH]; intros pre; [done|].
  cbn [indexed_from]. rewrite filter_cons. cbn [fst snd].
  rewrite Nat2Z.id, take_app_length.
  replace (Z.of_nat (length pre) + 1)%Z
    with (Z.of_nat (length (pre ++ [x]))) by (rewrite length_app; simpl; lia).
  rewrite (cons_middle x pre suf), app_assoc.
  unfold occurrences. rewrite (filter_cons _ x suf).
  specialize (IH (pre ++ [x])). unfold occurrences in IH.
  destruct (decide (x = n)) as [->|Hne].
  - destruct (decide (n ∈ pre)) as [Hin|Hin].
    + rewrite filter_cons, decide_True by done. simpl. rewrite IH.
      rewrite decide_True by set_solver. lia.
    + rewrite IH, decide_True by set_solver. simpl. lia.
  - assert (length (filter (λ p : Z * string, p.2 = n)
              (if decide (x ∈ pre) then
                 (Z.of_nat (length pre), x)
                 :: filter (λ p, p.2 ∈ take (Z.to_nat p.1) ((pre ++ [x]) ++ suf))
                      (indexed_from (Z.of_nat (length (pre ++ [x]))) suf)
               else
                 filter (λ p, p.2 ∈ take (Z.to_nat p.1) ((pre ++ [x]) ++ suf))
                   (indexed_from (Z.of_nat (length (pre ++ [x]))) suf)))
            = length (filter (λ p : Z * string, p.2 = n)
                 (filter (λ p, p.2 ∈ take (Z.to_nat p.1) ((pre ++ [x]) ++ suf))
                    (indexed_from (Z.of_nat (length (pre ++ [x]))) suf)))) as ->.
    { destruct (decide (x ∈ pre)); [|done].
      by rewrite filter_cons, decide_False by done. }
    rewrite IH.
    destruct (decide (n ∈ pre)), (decide (n ∈ pre ++ [x])); set_solver.
Qed.

Lemma repeats_count (n : string) (names : list string) :
  n ∈ names →
  S (length (filter (λ p, p.2 = n) (repeats names))) = occurrences n names.
Proof.
  intros Hin.
  assert (length (filter (λ p, p.2 = n) (repeats names))
          = (occurrences n names - 1)%nat) as ->
    by exact (repeats_count_from n [] names).
  assert (0 < occurrences n names)%nat; [|lia].
  unfold occurrences. induction names as [|y l IH].
  - by apply elem_of_nil in Hin.
  - rewrite filter_cons. destruct (decide (y = n)); simpl; [lia|].
    apply elem_of_cons in Hin as [->|Hin]; [done|]. by apply IH.
Qed.

Lemma validateNetworkNameUnique_repeats tbl field spec :
  admitter.validateNetworkNameUnique tbl field spec
  = (λ p, metav1.mkCause metav1.CauseTypeFieldValueDuplicate
            ("Network with name " +:+ strconv.Quote tbl p.2
             +:+ " already exists, every network must have a unique name")
            (admitter.networkNameField field p.1))
    <$> repeats (networkNames spec).
Proof.
  exact (unique_loop_repeats v1.Network.Name
           (λ i n, metav1.mkCause metav1.CauseTypeFieldValueDuplicate
                     (admitter.networkExistsMessage tbl n)
                     (admitter.networkNameField field i))
           (v1.Networks spec)).
Qed.

Lemma validateInterfaceNameUnique_repeats field spec :
  admitter.validateInterfaceNameUnique field spec
  = (λ p, metav1.mkCause metav1.CauseTypeFieldValueDuplicate
            "Only one interface can be connected to one specific network"
            (admitter.ifaceField field p.1 "name"))
    <$> repeats (interfaceNames spec).
Proof.
  exact (unique_loop_repeats v1.Interface.Name
           (λ i _, metav1.mkCause metav1.CauseTypeFieldValueDuplicate
                     "Only one interface can be connected to one specific network"
                     (admitter.ifaceField field i "name"))
           (specInterfaces spec)).
Qed.

(** A repeat sits at a position of the list and an earlier position holds
    the same name. *)
Lemma repeats_earlier (names : list string) (p : Z * string) :
  p ∈ repeats names →
  (0 ≤ p.1)%Z ∧ names !! Z.to_nat p.1 = Some p.2 ∧
  ∃ j, (j < Z.to_nat p.1)%nat ∧ names !! j = Some p.2.
Proof.
  unfold repeats, indexed. rewrite list_elem_of_filter, elem_of_indexed_from.
  intros [Htake [Hle Hl]]. rewrite Z.sub_0_r in Hl.
  split; [done|]. split; [done|].
  apply list_elem_of_lookup in Htake as [j Hj].
  apply lookup_take_Some in Hj as [Hj Hlt]. eauto.
Qed.

(** *** Quoting of plain names *)

(** Decide the comparisons of the goal, keeping the branches the
    hypotheses allow. *)
Ltac zcases :=
  repeat match goal with
    | |- context [(?x <=? ?y)%Z] => destruct (Z.leb_spec x y); try lia
    | |- context [(?x <? ?y)%Z] => destruct (Z.ltb_spec x y); try lia
    | |- context [(?x =? ?y)%Z] => destruct (Z.eqb_spec x y); try lia
    end.

Lemma byte_val_bound c : (0 ≤ gostring.byte_val c < 256)%Z.
Proof.
  unfold gostring.byte_val. pose proof (N_ascii_bounded c). lia.
Qed.

Lemma byte_of_byte_val c : utf8.byte_of (gostring.byte_val c) = c.
Proof.
  unfold utf8.byte_of. pose proof (byte_val_bound c).
  rewrite Z.mod_small by done. unfold gostring.byte_val.
  by rewrite N2Z.id, ascii_N_embedding.
Qed.

Lemma plainChar_bounds c :
  plainChar c = true →
  (0x20 ≤ gostring.byte_val c ≤ 0x7E)%Z ∧ gostring.byte_val c ≠ 0x22%Z ∧
  gostring.byte_val c ≠ 0x5C%Z.
Proof.
  unfold plainChar. cbv zeta.
  rewrite !andb_true_iff, !negb_true_iff, !Z.leb_le, !Z.eqb_neq. tauto.
Qed.

Lemma appendEscapedRune_plain tbl buf c :
  plainChar c = true →
  strconv.appendEscapedRune tbl buf (gostring.byte_val c) strconv.dquote
  = buf +:+ String c "".
Proof.
  intros (Hb & Hq & Hs)%plainChar_bounds.
  unfold strconv.appendEscapedRune, strconv.IsPrint, utf8.AppendRune.
  change (gostring.byte_val strconv.dquote) with 0x22%Z.
  change (gostring.byte_val strconv.backslash) with 0x5C%Z.
  zcases; simpl; by rewrite byte_of_byte_val.
Qed.

Lemma quote_loop_plain tbl s buf :
  plainName s = true →
  strconv.quote_loop tbl 0 s strconv.dquote buf = buf +:+ s.
Proof.
  revert buf. induction s as [|c s IH]; intros buf Hs.
  - simpl. by rewrite sapp_nil_r.
  - cbn [plainName] in Hs. apply andb_true_iff in Hs as [Hc Hs].
    cbn [strconv.quote_loop].
    pose proof (plainChar_bounds c Hc) as (Hb & _ & _).
    unfold utf8.RuneSelf, utf8.RuneError.
    destruct (Z.leb_spec 0x80 (gostring.byte_val c)); [lia|].
    destruct (Z.eqb_spec (gostring.byte_val c) 0xFFFD); [lia|].
    cbn [Z.eqb Pos.eqb andb Z.to_nat Pos.to_nat Pos.iter_op Nat.sub].
    rewrite appendEscapedRune_plain, IH by done.
    by rewrite sapp_assoc.
Qed.

Lemma Quote_plain tbl s :
  plainName s = true → strconv.Quote tbl s = doubleQuoted s.
Proof.
  intros Hs. unfold strconv.Quote, strconv.appendQuotedWith, doubleQuoted.
  cbv zeta. rewrite quote_loop_plain by done.
  by rewrite sapp_assoc.
Qed.

(** C2, as the code has it.  [validateNetworkNameUnique] returns, in list
    order, one cause of type FieldValueDuplicate for each position of the
    network list whose name already occurs at an earlier position, with the
    networks[i].name path of that position as field; for a name that occurs
    k times, k >= 1, these are k - 1 causes.  The message renders the name
    with the verb q of package fmt, that is [strconv.Quote]: the name is
    escaped and put between double quotes (a name of plain printable
    characters is copied between double quotes), not between single quotes.
    [validateInterfaceNameUnique] does the same on the interface list, with
    a fixed message and the name path of the repeated interface as field. *)
Theorem C2_unique_names (isPrintWide : Z → bool) (field : k8sfield.Path)
    (spec : v1.VirtualMachineInstanceSpec) :
  admitter.validateNetworkNameUnique isPrintWide field spec
  = (λ p, metav1.mkCause metav1.CauseTypeFieldValueDuplicate
            ("Network with name " +:+ strconv.Quote isPrintWide p.2
             +:+ " already exists, every network must have a unique name")
            (admitter.networkNameField field p.1))
    <$> repeats (networkNames spec)
  ∧ admitter.validateInterfaceNameUnique field spec
    = (λ p, metav1.mkCause metav1.CauseTypeFieldValueDuplicate
              "Only one interface can be connected to one specific network"
              (admitter.ifaceField field p.1 "name"))
      <$> repeats (interfaceNames spec)
  ∧ (∀ names n, n ∈ names →
       S (length (filter (λ p, p.2 = n) (repeats names))) = occurrences n names)
  ∧ (∀ names p, p ∈ repeats names →
       (0 ≤ p.1)%Z ∧ names !! Z.to_nat p.1 = Some p.2 ∧
       ∃ j, (j < Z.to_nat p.1)%nat ∧ names !! j = Some p.2)
  ∧ (∀ nm, plainName nm = true →
       strconv.Quote isPrintWide nm = doubleQuoted nm).
Proof.
  split; [apply validateNetworkNameUnique_repeats|].
  split; [apply validateInterfaceNameUnique_repeats|].
  split; [intros names n; apply repeats_count|].
  split; [apply repeats_earlier|].
  apply Quote_plain.
Qed.

Lemma C2_unique_names_witness :
  "net1" ∈ networkNames dupNetworksSpec ∧
  S (length (filter (λ p, p.2 = "net1") (repeats (networkNames dupNetworksSpec))))
  = occurrences "net1" (networkNames dupNetworksSpec).
Proof.
  split; [left|].
  apply (proj1 (proj2 (proj2
           (C2_unique_names (λ _, true) specPath dupNetworksSpec)))).
  left.
Defined.

(** C2 as stated fails on the message: for two networks named net1 the one
    cause carries the name between double quotes, which is not the message
    with the name between single quotes. *)
Lemma C2_single_quotes_counterexample :
  ∃ c,
    (∀ isPrintWide,
       admitter.validateNetworkNameUnique isPrintWide specPath dupNetworksSpec
       = [c]) ∧
    metav1.Field c = "spec.networks[1].name" ∧
    metav1.Message c
    = "Network with name " +:+ doubleQuoted "net1"
      +:+ " already exists, every network must have a unique name" ∧
    metav1.Message c
    ≠ "Network with name 'net1' already exists, every network must have a unique name".
Proof.
  eexists. split; [intros tbl; vm_compute; reflexivity|].
  split; [reflexivity|]. split; [reflexivity|].
  vm_compute. discriminate.
Qed.

(** *** [net.ParseMAC] never indexes or slices out of range *)

Lemma length_sdrop n s :
  String.length (gostring.sdrop n s) = (String.length s - n)%nat.
Proof.
  revert s. induction n as [|n IH]; intros [|c s]; simpl; auto with lia.
Qed.

Lemma length_stake n s :
  (n ≤ String.length s)%nat → String.length (gostring.stake n s) = n.
Proof.
  revert s. induction n as [|n IH]; intros [|c s]; simpl; intros Hn;
    auto with lia.
Qed.

Lemma get_is_Some n s : (n < String.length s)%nat → is_Some (String.get n s).
Proof.
  revert n. induction s as [|c s IH]; intros [|n]; simpl; intros Hn;
    try lia; [by eexists|]. apply IH. lia.
Qed.

Lemma index_is_Some s i :
  (0 ≤ i < gostring.len s)%Z → is_Some (gostring.index s i).
Proof.
  unfold gostring.index, gostring.len. intros Hi.
  rewrite decide_True by lia. apply get_is_Some. lia.
Qed.

Lemma slice_from_Some s a :
  (0 ≤ a ≤ gostring.len s)%Z →
  ∃ sub, gostring.slice_from s a = Some sub ∧
         gostring.len sub = (gostring.len s - a)%Z.
Proof.
  unfold gostring.slice_from, gostring.len. intros Ha.
  rewrite decide_True by done. eexists. split; [done|].
  rewrite length_sdrop. lia.
Qed.

Lemma slice_Some s a b :
  (0 ≤ a ∧ a ≤ b ∧ b ≤ gostring.len s)%Z →
  ∃ sub, gostring.slice s a b = Some sub ∧ gostring.len sub = (b - a)%Z.
Proof.
  unfold gostring.slice, gostring.len. intros Ha.
  rewrite decide_True by done. eexists. split; [done|].
  rewrite length_stake; [lia|]. rewrite length_sdrop. lia.
Qed.

Lemma xtoi2_is_Some s e :
  (2 ≤ gostring.len s)%Z → is_Some (net.xtoi2 s e).
Proof.
  intros Hs. unfold net.xtoi2.
  assert (∃ m, (if (2 <? gostring.len s)%Z
                then c ← gostring.index s 2; Some (negb (bool_decide (c = e)))
                else Some false) = Some m) as [m ->].
  { destruct (Z.ltb_spec 2 (gostring.len s)); [|by eexists].
    destruct (index_is_Some s 2) as [c ->]; [lia|]. by eexists. }
  simpl. destruct m; [by eexists|].
  unfold gostring.slice_to.
  destruct (slice_Some s 0 2) as (s2 & -> & _); [lia|]. simpl.
  destruct (net.xtoi s2) as [[n ei] ok]. by eexists.
Qed.

Lemma set_index_Some hw i b :
  (0 ≤ i < Z.of_nat (length hw))%Z →
  ∃ hw', net.set_index hw i b = Some hw' ∧ length hw' = length hw.
Proof.
  intros Hi. unfold net.set_index. rewrite decide_True by done.
  exists (<[Z.to_nat i := b]> hw). split; [done|]. apply length_insert.
Qed.

Lemma colon_loop_is_Some s sep rem x i hw :
  (0 ≤ x)%Z → (x + 3 * Z.of_nat rem = gostring.len s + 1)%Z →
  (0 ≤ i)%Z → (i + Z.of_nat rem = Z.of_nat (length hw))%Z →
  is_Some (net.colon_loop s sep rem x i hw).
Proof.
  revert x i hw. induction rem as [|rem IH]; intros x i hw Hx Hlen Hi Hhw.
  - by eexists.
  - cbn [net.colon_loop].
    destruct (slice_from_Some s x) as (sub & -> & Hsub); [lia|]. simpl.
    destruct (xtoi2_is_Some sub sep) as [[b ok] ->]; [lia|]. simpl.
    destruct (set_index_Some hw i b) as (hw' & -> & Hhw'); [lia|]. simpl.
    destruct ok; [|by eexists].
    apply IH; lia.
Qed.

Lemma dot_loop_is_Some s sep rem x i hw :
  (0 ≤ x)%Z → (x + 5 * Z.of_nat rem = gostring.len s + 1)%Z →
  (0 ≤ i)%Z → (i + 2 * Z.of_nat rem = Z.of_nat (length hw))%Z →
  is_Some (net.dot_loop s sep rem x i hw).
Proof.
  revert x i hw. induction rem as [|rem IH]; intros x i hw Hx Hlen Hi Hhw.
  - by eexists.
  - cbn [net.dot_loop].
    destruct (slice_Some s x (x + 2)) as (sub1 & -> & Hsub1); [lia|]. simpl.
    destruct (xtoi2_is_Some sub1 zero) as [[b1 ok1] ->]; [lia|]. simpl.
    destruct (set_index_Some hw i b1) as (hw1 & -> & Hhw1); [lia|]. simpl.
    destruct ok1; [|by eexists].
    destruct (slice_from_Some s (x + 2)) as (sub2 & -> & Hsub2); [lia|]. simpl.
    destruct (xtoi2_is_Some sub2 sep) as [[b2 ok2] ->]; [lia|]. simpl.
    destruct (set_index_Some hw1 (i + 1) b2) as (hw2 & -> & Hhw2); [lia|]. simpl.
    destruct ok2; [|by eexists].
    apply IH; lia.
Qed.

(** [ParseMAC] returns on every string, and what it returns is either the
    nil address with an error or an address with no error. *)
Lemma ParseMAC_cases (s : string) :
  net.ParseMAC s = Some (net.invalid s) ∨
  ∃ hw, net.ParseMAC s = Some (hw, None).
Proof.
  assert (∀ r, net.finish s r = net.invalid s ∨ ∃ hw, net.finish s r = (hw, None))
    as Hfinish by (intros [hw|]; simpl; eauto).
  unfold net.ParseMAC.
  destruct (Z.ltb_spec (gostring.len s) 14) as [|Hlen]; [by left|].
  destruct (index_is_Some s 2) as [c2 ->]; [lia|]. simpl.
  destruct (bool_decide (c2 = ":"%char) || bool_decide (c2 = "-"%char)).
  - destruct (Z.eqb_spec (Z.rem (gostring.len s + 1) 3) 0) as [Hrem|];
      simpl; [|by left].
    set (n := Z.quot (gostring.len s + 1) 3).
    assert (gostring.len s + 1 = 3 * n)%Z as Hn.
    { pose proof (Z.quot_rem' (gostring.len s + 1) 3). lia. }
    destruct (negb (n =? 6)%Z && negb (n =? 8)%Z && negb (n =? 20)%Z);
      [by left|].
    destruct (colon_loop_is_Some s c2 (Z.to_nat n) 0 0
                (replicate (Z.to_nat n) zero)) as [r ->];
      rewrite ?length_replicate; try lia.
    simpl. destruct (Hfinish r) as [->|[hw ->]]; eauto.
  - destruct (index_is_Some s 4) as [c4 ->]; [lia|]. simpl.
    destruct (bool_decide (c4 = "."%char)); [|by left].
    destruct (Z.eqb_spec (Z.rem (gostring.len s + 1) 5) 0) as [Hrem|];
      simpl; [|by left].
    set (n := Z.quot (2 * (gostring.len s + 1)) 5).
    pose proof (Z.quot_rem' (gostring.len s + 1) 5) as Hq.
    set (k := Z.quot (gostring.len s + 1) 5) in Hq.
    assert (gostring.len s + 1 = 5 * k)%Z as Hk by lia.
    assert (n = 2 * k)%Z as Hn.
    { unfold n. rewrite Hk.
      replace (2 * (5 * k))%Z with (2 * k * 5)%Z by lia.
      by rewrite Z.quot_mul. }
    assert (Z.quot n 2 = k) as Hk2.
    { rewrite Hn. replace (2 * k)%Z with (k * 2)%Z by lia.
      by rewrite Z.quot_mul. }
    destruct (negb (n =? 6)%Z && negb (n =? 8)%Z && negb (n =? 20)%Z);
      [by left|].
    rewrite Hk2.
    destruct (dot_loop_is_Some s c4 (Z.to_nat k) 0 0
                (replicate (Z.to_nat n) zero)) as [r ->];
      rewrite ?length_replicate; try lia.
    simpl. destruct (Hfinish r) as [->|[hw ->]]; eauto.
Qed.

(** *** MAC address check *)

Lemma validateMacAddress_parsed field idx iface :
  v1.Interface.MacAddress iface ≠ "" →
  ∃ mac err,
    net.ParseMAC (v1.Interface.MacAddress iface) = Some (mac, err) ∧
    (err ≠ None → mac = []) ∧
    admitter.validateMacAddress field idx iface
    = Some (admitter.checkParsedMac field idx iface (mac, err)).
Proof.
  intros Hne. unfold admitter.validateMacAddress.
  rewrite decide_True by done.
  destruct (ParseMAC_cases (v1.Interface.MacAddress iface)) as [->|[hw ->]].
  - eexists _, _. split; [done|]. split; done.
  - eexists _, _. split; [done|]. split; done.
Qed.

(** C3 as stated fails: no MAC address makes [validateMacAddress] return
    both the malformed cause and the too-long cause. *)
Lemma C3_both_causes_counterexample :
  ¬ ∃ field idx iface causes,
      v1.Interface.MacAddress iface ≠ "" ∧
      admitter.validateMacAddress field idx iface = Some causes ∧
      admitter.malformedMacCause field idx iface ∈ causes ∧
      admitter.tooLongMacCause field idx iface ∈ causes.
Proof.
  intros (field & idx & iface & causes & Hne & Hv & Hmal & Hlong).
  destruct (validateMacAddress_parsed field idx iface Hne)
    as (mac & err & _ & Hnil & Hv').
  rewrite Hv in Hv'. injection Hv' as ->.
  unfold admitter.checkParsedMac in Hmal, Hlong.
  destruct err as [e|].
  - rewrite Hnil in Hlong by done. simpl in Hlong.
    apply list_elem_of_singleton in Hlong.
    unfold admitter.tooLongMacCause, admitter.malformedMacCause in Hlong.
    injection Hlong as Hmsg. apply (f_equal String.length) in Hmsg.
    revert Hmsg. generalize (admitter.ifaceField field idx "name").
    generalize (v1.Interface.MacAddress iface). intros a b.
    rewrite !length_sapp. simpl. lia.
  - simpl in Hmal. destruct (decide (admitter.macLen < length mac)%nat).
    + apply list_elem_of_singleton in Hmal.
      unfold admitter.tooLongMacCause, admitter.malformedMacCause in Hmal.
      injection Hmal as Hmsg. apply (f_equal String.length) in Hmsg.
      revert Hmsg. generalize (admitter.ifaceField field idx "name").
      generalize (v1.Interface.MacAddress iface). intros a b.
      rewrite !length_sapp. simpl. lia.
    + by apply elem_of_nil in Hmal.
Qed.

(** C3, as the code has it.  On every non-empty MAC address
    [validateMacAddress] applies the parse-failure test and the length test
    to the pair returned by [net.ParseMAC], and neither test is nested in
    the other: on a pair with an error and more than 6 bytes they would add
    both causes.  [net.ParseMAC] returns the nil address with every error,
    so the two causes exclude each other: the result is the malformed cause
    alone when parsing fails, the too-long cause alone when parsing gives
    more than 6 bytes, and no cause otherwise. *)
Theorem C3_mac_checks_exclusive (field : k8sfield.Path) (idx : Z)
    (iface : v1.Interface.t) :
  v1.Interface.MacAddress iface ≠ "" →
  ∃ mac err,
    net.ParseMAC (v1.Interface.MacAddress iface) = Some (mac, err) ∧
    admitter.validateMacAddress field idx iface
    = Some (admitter.checkParsedMac field idx iface (mac, err)) ∧
    (∀ hw e, (admitter.macLen < length hw)%nat →
       admitter.checkParsedMac field idx iface (hw, Some e)
       = [admitter.malformedMacCause field idx iface;
          admitter.tooLongMacCause field idx iface]) ∧
    (err ≠ None → mac = []) ∧
    admitter.validateMacAddress field idx iface
    = Some (match err with
            | Some _ => [admitter.malformedMacCause field idx iface]
            | None =>
                if decide (admitter.macLen < length mac)%nat
                then [admitter.tooLongMacCause field idx iface]
                else []
            end).
Proof.
  intros Hne.
  destruct (validateMacAddress_parsed field idx iface Hne)
    as (mac & err & Hparse & Hnil & Hv).
  exists mac, err. split; [done|]. split; [done|].
  split; [|split; [done|]].
  - intros hw e Hlen. unfold admitter.checkParsedMac.
    by rewrite decide_True.
  - rewrite Hv. f_equal. unfold admitter.checkParsedMac.
    destruct err as [e|]; [|done].
    rewrite Hnil by done. done.
Qed.

Lemma C3_mac_checks_exclusive_witness :
  v1.Interface.MacAddress (macInterface "not-a-mac") ≠ "" ∧
  ∃ mac err,
    net.ParseMAC (v1.Interface.MacAddress (macInterface "not-a-mac"))
    = Some (mac, err) ∧
    admitter.validateMacAddress specPath 0 (macInterface "not-a-mac")
    = Some (admitter.checkParsedMac specPath 0 (macInterface "not-a-mac")
              (mac, err)) ∧
    (∀ hw e, (admitter.macLen < length hw)%nat →
       admitter.checkParsedMac specPath 0 (macInterface "not-a-mac") (hw, Some e)
       = [admitter.malformedMacCause specPath 0 (macInterface "not-a-mac");
          admitter.tooLongMacCause specPath 0 (macInterface "not-a-mac")]) ∧
    (err ≠ None → mac = []) ∧
    admitter.validateMacAddress specPath 0 (macInterface "not-a-mac")
    = Some (match err with
            | Some _ =>
                [admitter.malformedMacCause specPath 0 (macInterface "not-a-mac")]
            | None =>
                if decide (admitter.macLen < length mac)%nat
                then [admitter.tooLongMacCause specPath 0
                        (macInterface "not-a-mac")]
                else []
            end).
Proof.
  split; [discriminate|].
  apply (C3_mac_checks_exclusive specPath 0 (macInterface "not-a-mac")).
  discriminate.
Defined.

(** C4.  For every interface: an empty MAC address gives no cause;
    de:ad:be:ef:00:01 gives no cause; not-a-mac gives exactly the malformed
    cause, of type FieldValueInvalid; and a MAC address that
    [net.ParseMAC] parses to more than 6 bytes, such as the EUI-64 form
    02:00:5e:10:00:00:00:01 or a 20-octet form, gives the too-long cause, of
    type FieldValueInvalid. *)
Theorem C4_mac_examples (field : k8sfield.Path) (idx : Z)
    (iface : v1.Interface.t) :
  (v1.Interface.MacAddress iface = "" →
   admitter.validateMacAddress field idx iface = Some [])
  ∧ (v1.Interface.MacAddress iface = "de:ad:be:ef:00:01" →
     admitter.validateMacAddress field idx iface = Some [])
  ∧ (v1.Interface.MacAddress iface = "not-a-mac" →
     admitter.validateMacAddress field idx iface
     = Some [admitter.malformedMacCause field idx iface])
  ∧ (∀ hw, net.ParseMAC (v1.Interface.MacAddress iface) = Some (hw, None) →
           (6 < length hw)%nat →
           admitter.validateMacAddress field idx iface
           = Some [admitter.tooLongMacCause field idx iface])
  ∧ (v1.Interface.MacAddress iface = "02:00:5e:10:00:00:00:01" →
     admitter.validateMacAddress field idx iface
     = Some [admitter.tooLongMacCause field idx iface])
  ∧ (v1.Interface.MacAddress iface
     = "00:00:00:00:fe:80:00:00:00:00:00:00:02:00:5e:10:00:00:00:01" →
     admitter.validateMacAddress field idx iface
     = Some [admitter.tooLongMacCause field idx iface])
  ∧ metav1.Type_ (admitter.malformedMacCause field idx iface)
    = metav1.CauseTypeFieldValueInvalid
  ∧ metav1.Type_ (admitter.tooLongMacCause field idx iface)
    = metav1.CauseTypeFieldValueInvalid
  ∧ metav1.Field (admitter.malformedMacCause field idx iface)
    = admitter.ifaceField field idx "macAddress"
  ∧ metav1.Field (admitter.tooLongMacCause field idx iface)
    = admitter.ifaceField field idx "macAddress".
Proof.
  assert (∀ hw, net.ParseMAC (v1.Interface.MacAddress iface) = Some (hw, None) →
            (6 < length hw)%nat →
            admitter.validateMacAddress field idx iface
            = Some [admitter.tooLongMacCause field idx iface]) as Hlong.
  { intros hw Hparse Hlen. unfold admitter.validateMacAddress.
    destruct (decide (v1.Interface.MacAddress iface ≠ "")) as [|Hempty].
    - rewrite Hparse. simpl. by rewrite decide_True.
    - apply dec_stable in Hempty. by rewrite Hempty in Hparse. }
  repeat split; try done.
  - intros Hmac. unfold admitter.validateMacAddress.
    rewrite decide_False; [done|]. by intros [].
  - intros Hmac. unfold admitter.validateMacAddress. by rewrite Hmac.
  - intros Hmac. unfold admitter.validateMacAddress. rewrite Hmac.
    rewrite decide_True by done.
    by change (net.ParseMAC "not-a-mac") with (Some (net.invalid "not-a-mac")).
  - intros Hmac. eapply Hlong; [by rewrite Hmac|simpl; lia].
  - intros Hmac. eapply Hlong; [by rewrite Hmac|simpl; lia].
Qed.

Lemma C4_mac_examples_witness :
  admitter.validateMacAddress specPath 2 (macInterface "0200.5e10.0000.0001")
  = Some [admitter.tooLongMacCause specPath 2
            (macInterface "0200.5e10.0000.0001")].
Proof.
  apply (proj1 (proj2 (proj2 (proj2
           (C4_mac_examples specPath 2 (macInterface "0200.5e10.0000.0001"))))))
    with (hw := ["002"; "000"; "094"; "016"; "000"; "000"; "000"; "001"]%char).
  - reflexivity.
  - simpl. lia.
Defined.

(** *** The matcher decides the language of the expression *)

Lemma sapp_eq_nil (a b : string) : a +:+ b = "" → a = "" ∧ b = "".
Proof. destruct a; [done|]. rewrite sapp_cons. discriminate. Qed.

Lemma sapp_eq_cons (a b : string) c s :
  a +:+ b = String c s →
  (a = "" ∧ b = String c s) ∨ ∃ a', a = String c a' ∧ s = a' +:+ b.
Proof.
  destruct a as [|x a]; [by left|].
  rewrite sapp_cons. intros [= -> <-]. right. eauto.
Qed.

Lemma nullable_matches r : regexp.nullable r = true ↔ regexp.matches r "".
Proof.
  split.
  - induction r as [| |rs|a IHa b IHb|a IHa b IHb|a IHa|a IHa]; simpl;
      intros Hn; try discriminate.
    + constructor.
    + apply andb_true_iff in Hn as [Ha Hb].
      apply (regexp.m_concat a b "" ""); auto.
    + apply orb_true_iff in Hn as [Ha|Hb];
        [apply regexp.m_alt_l|apply regexp.m_alt_r]; auto.
    + constructor.
    + apply (regexp.m_plus a "" ""); [auto|constructor].
  - intros Hm. remember "" as s eqn:Hs.
    induction Hm as [|rs c Hc|a b s1 s2 _ IH1 _ IH2|a b s _ IH|a b s _ IH|a
                    |a s1 s2 _ IH1 _ IH2|a s1 s2 _ IH1 _ IH2]; simpl;
      try done.
    + apply sapp_eq_nil in Hs as [-> ->]. by rewrite IH1, IH2.
    + by rewrite IH.
    + rewrite IH by done. apply orb_true_r.
    + apply sapp_eq_nil in Hs as [-> ->]. by apply IH1.
Qed.

(** A non-empty match of a starred expression starts with a non-empty
    match of the expression. *)
Lemma star_cons_inv a c s :
  regexp.matches (regexp.Star a) (String c s) →
  ∃ s1 s2, s = s1 +:+ s2 ∧ regexp.matches a (String c s1) ∧
           regexp.matches (regexp.Star a) s2.
Proof.
  intros Hm. remember (regexp.Star a) as r eqn:Hr.
  remember (String c s) as w eqn:Hw. revert c s Hw.
  induction Hm as [|rs c' Hc|a' b s1 s2 _ IH1 _ IH2|a' b s' _ IH|a' b s' _ IH
                  |a'|a' s1 s2 Hm1 IH1 Hm2 IH2|a' s1 s2 _ IH1 _ IH2];
    intros c s Hw; try discriminate.
  injection Hr as ->.
  apply sapp_eq_cons in Hw as [[-> ->]|(s1' & -> & ->)].
  - by apply IH2.
  - eauto.
Qed.

Lemma matches_concat_inv a b w :
  regexp.matches (regexp.Concat a b) w →
  ∃ s1 s2, w = s1 +:+ s2 ∧ regexp.matches a s1 ∧ regexp.matches b s2.
Proof. inversion 1; eauto. Qed.

Lemma matches_plus_inv a w :
  regexp.matches (regexp.Plus a) w →
  ∃ s1 s2, w = s1 +:+ s2 ∧ regexp.matches a s1 ∧
           regexp.matches (regexp.Star a) s2.
Proof. inversion 1; eauto. Qed.

Lemma matches_alt_inv a b w :
  regexp.matches (regexp.Alternate a b) w →
  regexp.matches a w ∨ regexp.matches b w.
Proof. inversion 1; eauto. Qed.

Lemma matches_class_inv rs w :
  regexp.matches (regexp.CharClass rs) w →
  ∃ c, w = String c "" ∧ regexp.in_class rs c = true.
Proof. inversion 1; eauto. Qed.

Lemma matches_empty_inv w : regexp.matches regexp.EmptyMatch w → w = "".
Proof. by inversion 1. Qed.

Lemma matches_nomatch_inv w : ¬ regexp.matches regexp.NoMatch w.
Proof. inversion 1. Qed.

Lemma matches_step c r s :
  regexp.matches (regexp.step c r) s ↔ regexp.matches r (String c s).
Proof.
  split.
  - revert s.
    induction r as [| |rs|a IHa b IHb|a IHa b IHb|a IHa|a IHa]; simpl;
      intros s Hm.
    + by apply matches_nomatch_inv in Hm.
    + by apply matches_nomatch_inv in Hm.
    + destruct (regexp.in_class rs c) eqn:Hc.
      * apply matches_empty_inv in Hm as ->. by constructor.
      * by apply matches_nomatch_inv in Hm.
    + assert (∀ s, regexp.matches (regexp.Concat (regexp.step c a) b) s →
                   regexp.matches (regexp.Concat a b) (String c s)) as Hcat.
      { intros s' (s1 & s2 & -> & H1 & H2)%matches_concat_inv.
        apply (regexp.m_concat a b (String c s1) s2); auto. }
      destruct (regexp.nullable a) eqn:Hn; [|by apply Hcat].
      apply matches_alt_inv in Hm as [Hm|Hm]; [by apply Hcat|].
      apply (regexp.m_concat a b "" (String c s)); [|auto].
      by apply nullable_matches.
    + apply matches_alt_inv in Hm as [Hm|Hm];
        [apply regexp.m_alt_l|apply regexp.m_alt_r]; auto.
    + apply matches_concat_inv in Hm as (s1 & s2 & -> & H1 & H2).
      apply (regexp.m_star_cons a (String c s1) s2); auto.
    + apply matches_concat_inv in Hm as (s1 & s2 & -> & H1 & H2).
      apply (regexp.m_plus a (String c s1) s2); auto.
  - revert s.
    induction r as [| |rs|a IHa b IHb|a IHa b IHb|a IHa|a IHa]; simpl;
      intros s Hm.
    + by apply matches_nomatch_inv in Hm.
    + by apply matches_empty_inv in Hm.
    + apply matches_class_inv in Hm as (c' & [= -> ->] & Hc).
      rewrite Hc. constructor.
    + apply matches_concat_inv in Hm as (s1 & s2 & Hs & H1 & H2).
      symmetry in Hs.
      apply sapp_eq_cons in Hs as [[-> ->]|(s1' & -> & ->)].
      * apply nullable_matches in H1 as ->.
        apply regexp.m_alt_r. auto.
      * destruct (regexp.nullable a); [apply regexp.m_alt_l|];
          apply regexp.m_concat; auto.
    + apply matches_alt_inv in Hm as [Hm|Hm];
        [apply regexp.m_alt_l|apply regexp.m_alt_r]; auto.
    + apply star_cons_inv in Hm as (s1 & s2 & -> & H1 & H2).
      apply regexp.m_concat; auto.
    + apply matches_plus_inv in Hm as (s1 & s2 & Hs & H1 & H2).
      symmetry in Hs.
      apply sapp_eq_cons in Hs as [[-> ->]|(s1' & -> & ->)].
      * apply star_cons_inv in H2 as (s1 & s2 & -> & H1' & H2').
        apply regexp.m_concat; auto.
      * apply regexp.m_concat; auto.
Qed.

Lemma match_here_full r s :
  regexp.match_here true r s = true ↔ regexp.matches r s.
Proof.
  revert r. induction s as [|c s IH]; intros r; simpl.
  - apply nullable_matches.
  - rewrite IH. apply matches_step.
Qed.

(** With both anchors, [MatchString] is a match of the whole string. *)
Lemma MatchString_anchored r s :
  regexp.MatchString (regexp.mkCompiled true true r) s = true
  ↔ regexp.matches r s.
Proof. apply match_here_full. Qed.

(** *** Name syntax check *)

Lemma star_class_all rs s :
  regexp.matches (regexp.Star (regexp.CharClass rs)) s
  ↔ allChars (regexp.in_class rs) s = true.
Proof.
  split.
  - revert rs. induction s as [|c s IH]; intros rs Hm; [done|].
    apply star_cons_inv in Hm as (s1 & s2 & -> & H1 & H2).
    apply matches_class_inv in H1 as (c' & [= -> ->] & Hc).
    simpl. rewrite Hc. by apply IH.
  - induction s as [|c s IH]; simpl; intros Hall; [constructor|].
    apply andb_true_iff in Hall as [Hc Hall].
    apply (regexp.m_star_cons _ (String c "") s); [by constructor|auto].
Qed.

Lemma plus_class_all rs s :
  regexp.matches (regexp.Plus (regexp.CharClass rs)) s
  ↔ s ≠ "" ∧ allChars (regexp.in_class rs) s = true.
Proof.
  split.
  - intros (s1 & s2 & -> & H1 & H2)%matches_plus_inv.
    apply matches_class_inv in H1 as (c & -> & Hc).
    apply star_class_all in H2.
    change (String c "" +:+ s2) with (String c s2).
    split; [done|]. simpl. by rewrite Hc, H2.
  - intros [Hne Hall]. destruct s as [|c s]; [done|].
    simpl in Hall. apply andb_true_iff in Hall as [Hc Hall].
    apply (regexp.m_plus _ (String c "") s); [by constructor|].
    by apply star_class_all.
Qed.

Lemma allChars_ext (P Q : ascii → bool) s :
  (∀ c, P c = Q c) → allChars P s = allChars Q s.
Proof.
  intros HPQ. induction s as [|c s IH]; simpl; [done|].
  by rewrite HPQ, IH.
Qed.

Lemma in_class_code c :
  regexp.in_class [(65, 90); (97, 122); (48, 57); (45, 45); (95, 95)]%Z c
  = nameChar c.
Proof.
  unfold regexp.in_class, nameChar. cbn [existsb].
  generalize (gostring.byte_val c). intros b. zcases; reflexivity.
Qed.

Lemma in_class_claimed c :
  regexp.in_class [(65, 90); (97, 122); (48, 57); (95, 95); (45, 45)]%Z c
  = nameChar c.
Proof.
  unfold regexp.in_class, nameChar. cbn [existsb].
  generalize (gostring.byte_val c). intros b. zcases; reflexivity.
Qed.

Lemma isValid_fullMatch s :
  regexp.MatchString interfaceNamePattern s = true
  ↔ fullMatch claimedNamePattern s.
Proof.
  unfold interfaceNamePattern, fullMatch, claimedNamePattern.
  rewrite MatchString_anchored. cbn [regexp.expr].
  rewrite !plus_class_all.
  by rewrite (allChars_ext _ _ s in_class_code),
    (allChars_ext _ _ s in_class_claimed).
Qed.

Lemma MustCompile_interfaceNamePattern :
  regexp.MustCompile "^[A-Za-z0-9-_]+$" = Some interfaceNamePattern.
Proof. reflexivity. Qed.

Lemma validateInterfaceNameFormat_eq field idx iface :
  admitter.validateInterfaceNameFormat field idx iface
  = Some (if regexp.MatchString interfaceNamePattern (v1.Interface.Name iface)
          then [] else [nameFormatCause field idx]).
Proof.
  unfold admitter.validateInterfaceNameFormat.
  rewrite MustCompile_interfaceNamePattern. simpl.
  by destruct (regexp.MatchString _ _).
Qed.

(** C5.  [validateInterfaceNameFormat] returns no cause exactly when the
    whole name matches the anchored pattern of the specification, that is
    when the name is not empty and made of letters, digits, underscores and
    hyphens; otherwise it returns exactly one cause, of type
    FieldValueInvalid, at the name path of the interface.  The names eth0
    and my-iface_1 pass; the empty name, the name with a space and the name
    with a slash each give that one cause.  The pattern of the code and the
    pattern of the specification both compile, to the same class of
    characters. *)
Theorem C5_name_format (field : k8sfield.Path) (idx : Z)
    (iface : v1.Interface.t) :
  (admitter.validateInterfaceNameFormat field idx iface = Some []
   ↔ fullMatch claimedNamePattern (v1.Interface.Name iface))
  ∧ (fullMatch claimedNamePattern (v1.Interface.Name iface)
     ↔ v1.Interface.Name iface ≠ "" ∧
       allChars nameChar (v1.Interface.Name iface) = true)
  ∧ (admitter.validateInterfaceNameFormat field idx iface = Some [] ∨
     admitter.validateInterfaceNameFormat field idx iface
     = Some [nameFormatCause field idx])
  ∧ (∀ nm, v1.Interface.Name iface = nm → nm ∈ ["eth0"; "my-iface_1"] →
       admitter.validateInterfaceNameFormat field idx iface = Some [])
  ∧ (∀ nm, v1.Interface.Name iface = nm →
       nm ∈ [EmptyString; "eth 0"; "eth/0"] →
       admitter.validateInterfaceNameFormat field idx iface
       = Some [nameFormatCause field idx])
  ∧ regexp.MustCompile "^[A-Za-z0-9-_]+$" = Some interfaceNamePattern
  ∧ regexp.Compile "^[A-Za-z0-9_-]+$" = Some claimedNamePattern
  ∧ metav1.Type_ (nameFormatCause field idx) = metav1.CauseTypeFieldValueInvalid
  ∧ metav1.Field (nameFormatCause field idx)
    = admitter.ifaceField field idx "name".
Proof.
  pose proof (validateInterfaceNameFormat_eq field idx iface) as Hv.
  split; [|split; [|split; [|split; [|split; [|done]]]]].
  - rewrite <- isValid_fullMatch, Hv.
    destruct (regexp.MatchString _ _); split; done.
  - unfold fullMatch, claimedNamePattern. cbn [regexp.expr].
    rewrite plus_class_all.
    by rewrite (allChars_ext _ _ _ in_class_claimed).
  - rewrite Hv. destruct (regexp.MatchString _ _); auto.
  - intros nm Hnm Hin. rewrite Hv, Hnm.
    repeat (apply elem_of_cons in Hin as [->|Hin]; [reflexivity|]).
    by apply elem_of_nil in Hin.
  - intros nm Hnm Hin. rewrite Hv, Hnm.
    repeat (apply elem_of_cons in Hin as [->|Hin]; [reflexivity|]).
    by apply elem_of_nil in Hin.
Qed.

Lemma C5_name_format_witness :
  admitter.validateInterfaceNameFormat specPath 0 (plainInterface "eth 0")
  = Some [nameFormatCause specPath 0].
Proof.
  apply (proj1 (proj2 (proj2 (proj2 (proj2
           (C5_name_format specPath 0 (plainInterface "eth 0"))))))
           "eth 0" eq_refl).
  right. left.
Defined.

(** *** Model check *)

Lemma elem_of_validInterfaceModels m :
  m ∈ admitter.validInterfaceModels ↔ m ∈ supportedModels.
Proof.
  unfold admitter.validInterfaceModels, supportedModels.
  rewrite !elem_of_union, !elem_of_singleton, !elem_of_cons, elem_of_nil.
  tauto.
Qed.

(** C6.  For every interface: an empty model gives no cause; a model of
    the whitelist e1000, e1000e, ne2k_pci, pcnet, rtl8139, virtio gives no
    cause; any other non-empty model, such as banana, gives exactly one
    cause, of type FieldValueNotSupported.  The whitelist is the constant
    set of these six names. *)
Theorem C6_model (field : k8sfield.Path) (idx : Z) (iface : v1.Interface.t) :
  (v1.Interface.Model iface = "" →
   admitter.validateInterfaceModel field idx iface = [])
  ∧ (v1.Interface.Model iface ∈ supportedModels →
     admitter.validateInterfaceModel field idx iface = [])
  ∧ (v1.Interface.Model iface ≠ "" →
     v1.Interface.Model iface ∉ supportedModels →
     admitter.validateInterfaceModel field idx iface
     = [modelCause field idx iface])
  ∧ (v1.Interface.Model iface = "banana" →
     admitter.validateInterfaceModel field idx iface
     = [modelCause field idx iface])
  ∧ metav1.Type_ (modelCause field idx iface)
    = metav1.CauseTypeFieldValueNotSupported
  ∧ admitter.validInterfaceModels = list_to_set supportedModels
  ∧ supportedModels
    = ["e1000"; "e1000e"; "ne2k_pci"; "pcnet"; "rtl8139"; "virtio"].
Proof.
  assert (v1.Interface.Model iface ≠ "" →
          v1.Interface.Model iface ∉ supportedModels →
          admitter.validateInterfaceModel field idx iface
          = [modelCause field idx iface]) as Hbad.
  { intros Hne Hnot. unfold admitter.validateInterfaceModel.
    rewrite decide_True by done.
    rewrite decide_False by (by rewrite elem_of_validInterfaceModels).
    done. }
  split; [|split; [|split; [done|split; [|split; [done|split; [|done]]]]]].
  - intros Hm. unfold admitter.validateInterfaceModel.
    rewrite decide_False; [done|]. by intros [].
  - intros Hin. unfold admitter.validateInterfaceModel.
    destruct (decide (v1.Interface.Model iface ≠ "")); [|done].
    by rewrite decide_True by (by rewrite elem_of_validInterfaceModels).
  - intros Hm. apply Hbad; rewrite Hm; [done|].
    unfold supportedModels.
    rewrite !elem_of_cons, elem_of_nil. intros H.
    repeat (destruct H as [H|H]; [discriminate|]). done.
  - apply set_eq. intros m.
    by rewrite elem_of_validInterfaceModels, elem_of_list_to_set.
Qed.

Lemma C6_model_witness :
  admitter.validateInterfaceModel specPath 1
    (v1.Interface.mk "net1" "banana" "" "")
  = [modelCause specPath 1 (v1.Interface.mk "net1" "banana" "" "")].
Proof.
  apply (proj1 (proj2 (proj2 (proj2
           (C6_model specPath 1 (v1.Interface.mk "net1" "banana" "" "")))))).
  reflexivity.
Defined.

(** *** PCI address check *)

(** C7.  For every interface and whatever the parser of the PCI-address
    grammar is: an empty PCI address gives no cause; an address the parser
    accepts gives no cause; a non-empty address the parser rejects gives
    exactly one cause, of type FieldValueInvalid, at the pciAddress path of
    the interface.  With the parser of the grammar domain:bus:device.function,
    0000:00:1f.2 is accepted and gives no cause, and zz:00:00.0 is rejected
    and gives that one cause. *)
Theorem C7_pci
    (ParsePciAddress : string → list string * option string)
    (field : k8sfield.Path) (idx : Z) (iface : v1.Interface.t) :
  (v1.Interface.PciAddress iface = "" →
   admitter.validatePciAddress ParsePciAddress field idx iface = [])
  ∧ (snd (ParsePciAddress (v1.Interface.PciAddress iface)) = None →
     admitter.validatePciAddress ParsePciAddress field idx iface = [])
  ∧ (v1.Interface.PciAddress iface ≠ "" →
     snd (ParsePciAddress (v1.Interface.PciAddress iface)) ≠ None →
     admitter.validatePciAddress ParsePciAddress field idx iface
     = [pciCause field idx iface])
  ∧ (v1.Interface.PciAddress iface = "0000:00:1f.2" →
     admitter.validatePciAddress hwutil.ParsePciAddress field idx iface = [])
  ∧ (v1.Interface.PciAddress iface = "zz:00:00.0" →
     admitter.validatePciAddress hwutil.ParsePciAddress field idx iface
     = [pciCause field idx iface])
  ∧ metav1.Type_ (pciCause field idx iface) = metav1.CauseTypeFieldValueInvalid
  ∧ metav1.Field (pciCause field idx iface)
    = admitter.ifaceField field idx "pciAddress".
Proof.
  split; [|split; [|split; [|split; [|split; [|done]]]]].
  - intros Hp. unfold admitter.validatePciAddress.
    rewrite decide_False; [done|]. by intros [].
  - intros Hok. unfold admitter.validatePciAddress. rewrite Hok.
    by destruct (decide _).
  - intros Hne Herr. unfold admitter.validatePciAddress.
    rewrite decide_True by done.
    by destruct (snd (ParsePciAddress (v1.Interface.PciAddress iface))).
  - intros Hp. unfold admitter.validatePciAddress. by rewrite Hp.
  - intros Hp. unfold admitter.validatePciAddress, pciCause. by rewrite Hp.
Qed.

Lemma C7_pci_witness :
  admitter.validatePciAddress hwutil.ParsePciAddress specPath 0
    (v1.Interface.mk "net1" "" "" "zz:00:00.0")
  = [pciCause specPath 0 (v1.Interface.mk "net1" "" "" "zz:00:00.0")].
Proof.
  apply (proj1 (proj2 (proj2
           (C7_pci hwutil.ParsePciAddress specPath 0
              (v1.Interface.mk "net1" "" "" "zz:00:00.0"))))).
  - discriminate.
  - discriminate.
Defined.

(** *** Field-format check *)

Lemma range_loopM_ext {A St : Type} (f g : Z → A → St → option St) i
    (l : list A) st :
  (∀ j x s, f j x s = g j x s) → range_loopM f i l st = range_loopM g i l st.
Proof.
  intros Hfg. revert i st.
  induction l as [|x l IH]; intros i st; simpl; [done|].
  rewrite Hfg. destruct (g i x st); simpl; [apply IH|done].
Qed.

(** A loop that appends what a fallible step returns. *)
Lemma range_loopM_concat {A B : Type} (g : Z * A → option (list B)) i
    (l : list A) acc :
  range_loopM (λ j x causes, cs ← g (j, x); Some (causes ++ cs)) i l acc
  = (λ per, acc ++ concat per) <$> mapM g (indexed_from i l).
Proof.
  revert i acc. induction l as [|x l IH]; intros i acc; simpl.
  - by rewrite app_nil_r.
  - destruct (g (i, x)) as [cs|]; simpl; [|done].
    rewrite IH. destruct (mapM g (indexed_from (i + 1) l)); simpl; [|done].
    by rewrite app_assoc.
Qed.

Lemma validateInterfacesFields_concat ParsePciAddress field spec :
  admitter.validateInterfacesFields ParsePciAddress field spec
  = (λ per, concat per)
    <$> mapM (interfaceCauses ParsePciAddress field)
          (indexed (specInterfaces spec)).
Proof.
  unfold admitter.validateInterfacesFields.
  erewrite range_loopM_ext.
  - apply (range_loopM_concat (interfaceCauses ParsePciAddress field)).
  - intros j x causes. unfold interfaceCauses. simpl.
    destruct (admitter.validateInterfaceNameFormat field j x); simpl; [|done].
    destruct (admitter.validateMacAddress field j x); simpl; [|done].
    by rewrite <- !app_assoc.
Qed.

Lemma validateMacAddress_is_Some field idx iface :
  ∃ causes, admitter.validateMacAddress field idx iface = Some causes ∧
            (length causes ≤ 1)%nat.
Proof.
  destruct (decide (v1.Interface.MacAddress iface ≠ "")) as [Hne|Hempty].
  - destruct (validateMacAddress_parsed field idx iface Hne)
      as (mac & err & _ & Hnil & ->).
    eexists. split; [done|]. unfold admitter.checkParsedMac.
    destruct err as [e|].
    + rewrite Hnil by done. simpl. lia.
    + destruct (decide _); simpl; lia.
  - unfold admitter.validateMacAddress. rewrite decide_False by done.
    eexists. split; [done|]. simpl. lia.
Qed.

Lemma mapM_interfaceCauses_is_Some ParsePciAddress field
    (l : list (Z * v1.Interface.t)) :
  ∃ per, mapM (interfaceCauses ParsePciAddress field) l = Some per ∧
         Forall2 (λ p cs, interfaceCauses ParsePciAddress field p = Some cs)
           l per.
Proof.
  induction l as [|p l (per & Hper & Hall)].
  - exists []. split; [done|constructor].
  - destruct (validateMacAddress_is_Some field p.1 p.2) as (mac & Hmac & _).
    assert (∃ cs, interfaceCauses ParsePciAddress field p = Some cs)
      as [cs Hcs].
    { unfold interfaceCauses.
      rewrite validateInterfaceNameFormat_eq, Hmac. by eexists. }
    exists (cs :: per). split; [|by constructor].
    cbn [mapM]. rewrite Hcs. simpl. by rewrite Hper.
Qed.

(** C8.  [validateInterfacesFields] returns the concatenation, over the
    interfaces in list order, of the causes of the four sub-checks applied
    to the interface in the order name syntax, model, MAC address, PCI
    address.  Every sub-check is applied to every interface, whatever the
    other sub-checks return. *)
Theorem C8_fields_concat
    (ParsePciAddress : string → list string * option string)
    (field : k8sfield.Path) (spec : v1.VirtualMachineInstanceSpec) :
  ∃ per : list (list metav1.StatusCause),
    admitter.validateInterfacesFields ParsePciAddress field spec
    = Some (concat per) ∧
    Forall2
      (λ p cs, ∃ nameCauses macCauses,
         admitter.validateInterfaceNameFormat field p.1 p.2 = Some nameCauses ∧
         admitter.validateMacAddress field p.1 p.2 = Some macCauses ∧
         cs = nameCauses
              ++ admitter.validateInterfaceModel field p.1 p.2
              ++ macCauses
              ++ admitter.validatePciAddress ParsePciAddress field p.1 p.2)
      (indexed (specInterfaces spec)) per.
Proof.
  destruct (mapM_interfaceCauses_is_Some ParsePciAddress field
              (indexed (specInterfaces spec))) as (per & Hper & Hall).
  exists per. split.
  - by rewrite validateInterfacesFields_concat, Hper.
  - eapply Forall2_impl; [exact Hall|].
    intros p cs Hcs. unfold interfaceCauses in Hcs.
    destruct (admitter.validateInterfaceNameFormat field p.1 p.2) as [nm|];
      simpl in Hcs; [|done].
    destruct (admitter.validateMacAddress field p.1 p.2) as [mac|];
      simpl in Hcs; [|done].
    exists nm, mac. split; [done|]. split; [done|]. by injection Hcs as <-.
Qed.

(** On an interface where all four sub-checks fail, all four causes are
    returned, in the fixed order. *)
Lemma validateInterfacesFields_badSpec :
  admitter.validateInterfacesFields hwutil.ParsePciAddress specPath badSpec
  = Some [nameFormatCause specPath 1;
          modelCause specPath 1 badInterface;
          admitter.malformedMacCause specPath 1 badInterface;
          pciCause specPath 1 badInterface].
Proof. reflexivity. Qed.

(** *** Totality *)

Lemma length_indexed_from {A : Type} i (l : list A) :
  length (indexed_from i l) = length l.
Proof.
  revert i. induction l as [|x l IH]; intros i; simpl; [done|].
  by rewrite IH.
Qed.

Lemma length_fmap_filter {A B : Type} (f : A → B) (P : A → Prop)
    `{∀ x, Decision (P x)} (l : list A) :
  (length (f <$> filter P l) ≤ length l)%nat.
Proof. rewrite length_fmap. apply length_filter. Qed.

Lemma length_repeats names : (length (repeats names) ≤ length names)%nat.
Proof.
  unfold repeats, indexed. etrans; [apply length_filter|].
  by rewrite length_indexed_from.
Qed.

Lemma length_interfaceCauses ParsePciAddress field p cs :
  interfaceCauses ParsePciAddress field p = Some cs → (length cs ≤ 4)%nat.
Proof.
  unfold interfaceCauses. rewrite validateInterfaceNameFormat_eq.
  destruct (validateMacAddress_is_Some field p.1 p.2) as (mac & -> & Hmac).
  simpl. intros [= <-]. rewrite !length_app.
  assert (length (if regexp.MatchString interfaceNamePattern
                       (v1.Interface.Name p.2)
                  then [] else [nameFormatCause field p.1]) ≤ 1)%nat.
  { destruct (regexp.MatchString _ _); simpl; lia. }
  assert (length (admitter.validateInterfaceModel field p.1 p.2) ≤ 1)%nat.
  { unfold admitter.validateInterfaceModel.
    repeat (destruct (decide _)); simpl; lia. }
  assert (length (admitter.validatePciAddress ParsePciAddress field p.1 p.2)
          ≤ 1)%nat.
  { unfold admitter.validatePciAddress.
    destruct (decide _); [destruct (snd (ParsePciAddress _))|]; simpl; lia. }
  lia.
Qed.

Lemma validateInterfacesFields_is_Some ParsePciAddress field spec :
  ∃ causes,
    admitter.validateInterfacesFields ParsePciAddress field spec = Some causes ∧
    (length causes ≤ 4 * length (specInterfaces spec))%nat.
Proof.
  rewrite validateInterfacesFields_concat.
  destruct (mapM_interfaceCauses_is_Some ParsePciAddress field
              (indexed (specInterfaces spec))) as (per & -> & Hall).
  simpl. eexists. split; [done|].
  rewrite <- (length_indexed_from 0 (specInterfaces spec)).
  fold (indexed (specInterfaces spec)).
  induction Hall as [|p cs l per Hcs _ IH]; simpl; [lia|].
  apply length_interfaceCauses in Hcs. rewrite length_app. lia.
Qed.

(** C9.  Every check returns a cause list on every prefix and every spec.
    The field-format check, whose MAC parser indexes and slices the
    address and whose name check compiles a pattern, never panics:
    [net.ParseMAC] returns on every string, the pattern compiles,
    [validateInterfaceNameFormat] and [validateMacAddress] return on every
    interface and [validateInterfacesFields] on every spec, with at most
    four causes per interface.  The
    cross-reference and uniqueness checks have no partial operation and
    return at most one cause per entry.  On the spec with empty lists every
    check returns the empty list.  In the embedding a check is a function of
    the prefix and the spec whose only result is the cause list, so the
    prefix and the spec are the same after the call. *)
Theorem C9_total (isPrintWide : Z → bool)
    (ParsePciAddress : string → list string * option string)
    (field : k8sfield.Path) (spec : v1.VirtualMachineInstanceSpec) :
  (∃ causes,
     admitter.validateInterfacesFields ParsePciAddress field spec = Some causes ∧
     (length causes ≤ 4 * length (specInterfaces spec))%nat)
  ∧ (∀ idx iface, ∃ causes,
       admitter.validateMacAddress field idx iface = Some causes ∧
       (length causes ≤ 1)%nat)
  ∧ (∀ s, ∃ hw err, net.ParseMAC s = Some (hw, err))
  ∧ (∀ idx iface, ∃ causes,
       admitter.validateInterfaceNameFormat field idx iface = Some causes ∧
       (length causes ≤ 1)%nat)
  ∧ (length (admitter.validateNetworksAssignedToInterfaces field spec)
     ≤ length (v1.Networks spec))%nat
  ∧ (length (admitter.validateInterfacesAssignedToNetworks field spec)
     ≤ length (specInterfaces spec))%nat
  ∧ (length (admitter.validateNetworkNameUnique isPrintWide field spec)
     ≤ length (v1.Networks spec))%nat
  ∧ (length (admitter.validateInterfaceNameUnique field spec)
     ≤ length (specInterfaces spec))%nat
  ∧ admitter.validateNetworksAssignedToInterfaces field emptySpec = []
  ∧ admitter.validateInterfacesAssignedToNetworks field emptySpec = []
  ∧ admitter.validateNetworkNameUnique isPrintWide field emptySpec = []
  ∧ admitter.validateInterfaceNameUnique field emptySpec = []
  ∧ admitter.validateInterfacesFields ParsePciAddress field emptySpec = Some [].
Proof.
  split; [apply validateInterfacesFields_is_Some|].
  split; [intros; apply validateMacAddress_is_Some|].
  split.
  { intros s. destruct (ParseMAC_cases s) as [->|[hw ->]]; by eexists _, _. }
  split.
  { intros idx iface. rewrite validateInterfaceNameFormat_eq.
    eexists. split; [done|]. destruct (regexp.MatchString _ _); simpl; lia. }
  split.
  { rewrite validateNetworksAssignedToInterfaces_filter.
    etrans; [apply length_fmap_filter|].
    unfold indexed. by rewrite length_indexed_from. }
  split.
  { rewrite validateInterfacesAssignedToNetworks_filter.
    etrans; [apply length_fmap_filter|].
    unfold indexed. by rewrite length_indexed_from. }
  split.
  { rewrite validateNetworkNameUnique_repeats, length_fmap.
    etrans; [apply length_repeats|].
    unfold networkNames. by rewrite length_fmap. }
  split.
  { rewrite validateInterfaceNameUnique_repeats, length_fmap.
    etrans; [apply length_repeats|].
    unfold interfaceNames. by rewrite length_fmap. }
  done.
Qed.

(** *** Determinism *)

Section MapPrograms.
Context {V A : Type}.
Implicit Types (p : gomap.Prog V A) (m : gmap string V).

(** A program that never ranges over its map has one result, whatever
    the runtime's orders are. *)
Lemma runs_rangeFree_eval p ord m a :
  gomap.rangeFree p → gomap.runs m p a → a = gomap.eval ord m p.
Proof.
  intros Hfree. revert m.
  induction Hfree as [a'|k cont _ IH|k v cont _ IH]; intros m Hrun;
    inversion Hrun; subst; simpl; auto.
Qed.

Lemma eval_runs p ord m :
  gomap.rangeFree p → gomap.runs m p (gomap.eval ord m p).
Proof.
  intros Hfree. revert m.
  induction Hfree as [a'|k cont _ IH|k v cont _ IH]; intros m; simpl;
    constructor; auto.
Qed.

Lemma runs_rangeFree_deterministic p m a b :
  gomap.rangeFree p → gomap.runs m p a → gomap.runs m p b → a = b.
Proof.
  intros Hfree Ha Hb.
  rewrite (runs_rangeFree_eval p map_to_list m a Hfree Ha).
  by rewrite (runs_rangeFree_eval p map_to_list m b Hfree Hb).
Qed.
End MapPrograms.

(** A program that ranges over a map of two entries has two results. *)
Lemma rangeKeys_two_results :
  gomap.runs twoKeys gomap.rangeKeys ["a"; "b"] ∧
  gomap.runs twoKeys gomap.rangeKeys ["b"; "a"].
Proof.
  assert (map_to_list twoKeys ≡ₚ [("a", ()); ("b", ())]) as Hperm.
  { unfold twoKeys. rewrite map_to_list_insert by done.
    rewrite map_to_list_insert by done. by rewrite map_to_list_empty. }
  split.
  - apply (gomap.runs_range _ _ [("a", ()); ("b", ())]); [done|constructor].
  - apply (gomap.runs_range _ _ [("b", ()); ("a", ())]); [|constructor].
    rewrite Hperm. apply Permutation_swap.
Qed.

(** The programs of the checks never range over their maps. *)

Lemma IndexInterfaceSpecByName_rangeFree {A : Type} interfaces
    (k : gomap.Prog v1.Interface.t A) :
  gomap.rangeFree k →
  gomap.rangeFree (admitter_maps.IndexInterfaceSpecByName interfaces k).
Proof. intros Hk. induction interfaces; simpl; [done|by constructor]. Qed.

Lemma IndexNetworkSpecByName_rangeFree {A : Type} networks
    (k : gomap.Prog v1.Network.t A) :
  gomap.rangeFree k →
  gomap.rangeFree (admitter_maps.IndexNetworkSpecByName networks k).
Proof. intros Hk. induction networks; simpl; [done|by constructor]. Qed.

Lemma validateNetworksAssignedToInterfaces_rangeFree field spec :
  gomap.rangeFree (admitter_maps.validateNetworksAssignedToInterfaces field spec).
Proof.
  apply IndexInterfaceSpecByName_rangeFree.
  generalize 0%Z (@nil metav1.StatusCause).
  induction (v1.Networks spec) as [|x l IH]; intros i causes; simpl;
    constructor; auto.
Qed.

Lemma validateInterfacesAssignedToNetworks_rangeFree field spec :
  gomap.rangeFree (admitter_maps.validateInterfacesAssignedToNetworks field spec).
Proof.
  apply IndexNetworkSpecByName_rangeFree.
  generalize 0%Z (@nil metav1.StatusCause).
  induction (v1.Interfaces _) as [|x l IH]; intros i causes; simpl;
    constructor; auto.
Qed.

Lemma validateNetworkNameUnique_rangeFree isPrintWide field spec :
  gomap.rangeFree
    (admitter_maps.validateNetworkNameUnique isPrintWide field spec).
Proof.
  unfold admitter_maps.validateNetworkNameUnique.
  generalize 0%Z (@nil metav1.StatusCause).
  induction (v1.Networks spec) as [|x l IH]; intros i causes; simpl;
    repeat constructor; auto.
Qed.

Lemma validateInterfaceNameUnique_rangeFree field spec :
  gomap.rangeFree (admitter_maps.validateInterfaceNameUnique field spec).
Proof.
  unfold admitter_maps.validateInterfaceNameUnique.
  generalize 0%Z (@nil metav1.StatusCause).
  induction (v1.Interfaces _) as [|x l IH]; intros i causes; simpl;
    repeat constructor; auto.
Qed.

Lemma validateInterfaceModel_rangeFree {A : Type} field idx iface
    (k : list metav1.StatusCause → gomap.Prog unit A) :
  (∀ cs, gomap.rangeFree (k cs)) →
  gomap.rangeFree (admitter_maps.validateInterfaceModel field idx iface k).
Proof.
  intros Hk. unfold admitter_maps.validateInterfaceModel.
  destruct (decide _); [|done]. constructor. by intros [[]|].
Qed.

Lemma validateInterfacesFields_rangeFree ParsePciAddress field spec :
  gomap.rangeFree
    (admitter_maps.validateInterfacesFields ParsePciAddress field spec).
Proof.
  unfold admitter_maps.validateInterfacesFields.
  generalize 0%Z (@nil metav1.StatusCause).
  induction (v1.Interfaces _) as [|x l IH]; intros i causes; simpl;
    [constructor|].
  destruct (admitter.validateInterfaceNameFormat field i x); [|constructor].
  apply validateInterfaceModel_rangeFree. intros cs.
  destruct (admitter.validateMacAddress field i x); [|constructor].
  apply IH.
Qed.

(** A run of the program of a check returns what the check returns. *)

Lemma eval_IndexInterfaceSpecByName {A : Type} ord i interfaces m
    (k : gomap.Prog v1.Interface.t A) :
  gomap.eval ord m (admitter_maps.IndexInterfaceSpecByName interfaces k)
  = gomap.eval ord
      (range_loop (λ _ x m, <[v1.Interface.Name x := x]> m) i interfaces m) k.
Proof.
  revert i m. induction interfaces as [|x l IH]; intros i m; simpl; [done|].
  apply IH.
Qed.

Lemma eval_IndexNetworkSpecByName {A : Type} ord i networks m
    (k : gomap.Prog v1.Network.t A) :
  gomap.eval ord m (admitter_maps.IndexNetworkSpecByName networks k)
  = gomap.eval ord
      (range_loop (λ _ x m, <[v1.Network.Name x := x]> m) i networks m) k.
Proof.
  revert i m. induction networks as [|x l IH]; intros i m; simpl; [done|].
  apply IH.
Qed.

Lemma eval_networksLoop ord field (m : gmap string v1.Interface.t) i l causes :
  gomap.eval ord m (admitter_maps.networksLoop field i l causes)
  = range_loop
      (λ i network causes,
         match m !! v1.Network.Name network with
         | None =>
             causes ++
             [metav1.mkCause metav1.CauseTypeFieldValueRequired
                (admitter.nameOfTypeNotFoundMessage
                   (admitter.networkNameField field i)
                   (v1.Network.Name network))
                (admitter.networkNameField field i)]
         | Some _ => causes
         end)
      i l causes.
Proof.
  revert i causes. induction l as [|x l IH]; intros i causes; simpl; [done|].
  apply IH.
Qed.

Lemma eval_validateNetworksAssignedToInterfaces ord field spec :
  gomap.eval ord ∅ (admitter_maps.validateNetworksAssignedToInterfaces field spec)
  = admitter.validateNetworksAssignedToInterfaces field spec.
Proof.
  unfold admitter_maps.validateNetworksAssignedToInterfaces.
  rewrite (eval_IndexInterfaceSpecByName ord 0). apply eval_networksLoop.
Qed.

Lemma eval_interfacesLoop ord field (m : gmap string v1.Network.t) i l causes :
  gomap.eval ord m (admitter_maps.interfacesLoop field i l causes)
  = range_loop
      (λ idx iface causes,
         match m !! v1.Interface.Name iface with
         | None =>
             causes ++
             [metav1.mkCause metav1.CauseTypeFieldValueInvalid
                (admitter.nameOfTypeNotFoundMessage
                   (admitter.ifaceField field idx "name")
                   (v1.Interface.Name iface))
                (admitter.ifaceField field idx "name")]
         | Some _ => causes
         end)
      i l causes.
Proof.
  revert i causes. induction l as [|x l IH]; intros i causes; simpl; [done|].
  apply IH.
Qed.

Lemma eval_validateInterfacesAssignedToNetworks ord field spec :
  gomap.eval ord ∅ (admitter_maps.validateInterfacesAssignedToNetworks field spec)
  = admitter.validateInterfacesAssignedToNetworks field spec.
Proof.
  unfold admitter_maps.validateInterfacesAssignedToNetworks.
  rewrite (eval_IndexNetworkSpecByName ord 0). apply eval_interfacesLoop.
Qed.

Lemma eval_networkUniqueLoop ord isPrintWide field (m : gmap string unit) i l
    causes :
  gomap.eval ord m
    (admitter_maps.networkUniqueLoop isPrintWide field i l causes)
  = fst (range_loop
           (λ i network '(causes, networkSet),
              let causes :=
                if decide (v1.Network.Name network ∈ networkSet) then
                  causes ++
                  [metav1.mkCause metav1.CauseTypeFieldValueDuplicate
                     (admitter.networkExistsMessage isPrintWide
                        (v1.Network.Name network))
                     (admitter.networkNameField field i)]
                else causes in
              (causes, {[v1.Network.Name network]} ∪ networkSet))
           i l (causes, dom m : gset string)).
Proof.
  revert m i causes.
  induction l as [|x l IH]; intros m i causes; simpl; [done|].
  rewrite IH, dom_insert_L. do 2 f_equal.
  destruct (m !! v1.Network.Name x) as [u|] eqn:Hm.
  - rewrite decide_True; [done|]. apply elem_of_dom. by eexists.
  - rewrite decide_False; [done|]. by apply not_elem_of_dom.
Qed.

Lemma eval_validateNetworkNameUnique ord isPrintWide field spec :
  gomap.eval ord ∅
    (admitter_maps.validateNetworkNameUnique isPrintWide field spec)
  = admitter.validateNetworkNameUnique isPrintWide field spec.
Proof.
  unfold admitter_maps.validateNetworkNameUnique.
  rewrite eval_networkUniqueLoop. by rewrite dom_empty_L.
Qed.

Lemma eval_interfaceUniqueLoop ord field (m : gmap string unit) i l causes :
  gomap.eval ord m (admitter_maps.interfaceUniqueLoop field i l causes)
  = fst (range_loop
           (λ idx iface '(causes, ifaceSet),
              let causes :=
                if decide (v1.Interface.Name iface ∈ ifaceSet) then
                  causes ++
                  [metav1.mkCause metav1.CauseTypeFieldValueDuplicate
                     "Only one interface can be connected to one specific network"
                     (admitter.ifaceField field idx "name")]
                else causes in
              (causes, {[v1.Interface.Name iface]} ∪ ifaceSet))
           i l (causes, dom m : gset string)).
Proof.
  revert m i causes.
  induction l as [|x l IH]; intros m i causes; simpl; [done|].
  rewrite IH, dom_insert_L. do 2 f_equal.
  destruct (m !! v1.Interface.Name x) as [u|] eqn:Hm.
  - rewrite decide_True; [done|]. apply elem_of_dom. by eexists.
  - rewrite decide_False; [done|]. by apply not_elem_of_dom.
Qed.

Lemma eval_validateInterfaceNameUnique ord field spec :
  gomap.eval ord ∅ (admitter_maps.validateInterfaceNameUnique field spec)
  = admitter.validateInterfaceNameUnique field spec.
Proof.
  unfold admitter_maps.validateInterfaceNameUnique.
  rewrite eval_interfaceUniqueLoop. by rewrite dom_empty_L.
Qed.

Lemma eval_validateInterfaceModel {A : Type} ord field idx iface
    (k : list metav1.StatusCause → gomap.Prog unit A) :
  gomap.eval ord admitter_maps.validInterfaceModels
    (admitter_maps.validateInterfaceModel field idx iface k)
  = gomap.eval ord admitter_maps.validInterfaceModels
      (k (admitter.validateInterfaceModel field idx iface)).
Proof.
  unfold admitter_maps.validateInterfaceModel, admitter.validateInterfaceModel.
  destruct (decide (v1.Interface.Model iface ≠ "")); [|done]. simpl.
  unfold admitter_maps.validInterfaceModels at 2.
  destruct (decide (v1.Interface.Model iface ∈ admitter.validInterfaceModels))
    as [Hin|Hin].
  - by rewrite (proj2 (lookup_gset_to_gmap_Some _ _ _ _) (conj Hin eq_refl)).
  - by rewrite (proj2 (lookup_gset_to_gmap_None _ _ _) Hin).
Qed.

Lemma eval_fieldsLoop ord ParsePciAddress field i l causes :
  gomap.eval ord admitter_maps.validInterfaceModels
    (admitter_maps.fieldsLoop ParsePciAddress field i l causes)
  = range_loopM
      (λ idx iface causes,
         nameCauses ← admitter.validateInterfaceNameFormat field idx iface;
         let causes := causes ++ nameCauses in
         let causes := causes ++ admitter.validateInterfaceModel field idx iface in
         macCauses ← admitter.validateMacAddress field idx iface;
         let causes := causes ++ macCauses in
         let causes :=
           causes ++ admitter.validatePciAddress ParsePciAddress field idx iface in
         Some causes)
      i l causes.
Proof.
  revert i causes. induction l as [|x l IH]; intros i causes; simpl; [done|].
  destruct (admitter.validateInterfaceNameFormat field i x); simpl; [|done].
  rewrite eval_validateInterfaceModel.
  destruct (admitter.validateMacAddress field i x); simpl; [|done].
  apply IH.
Qed.

Lemma eval_validateInterfacesFields ord ParsePciAddress field spec :
  gomap.eval ord admitter_maps.validInterfaceModels
    (admitter_maps.validateInterfacesFields ParsePciAddress field spec)
  = admitter.validateInterfacesFields ParsePciAddress field spec.
Proof. apply eval_fieldsLoop. Qed.



(** *** The checks on concrete specs *)

(** One network net1 and two interfaces net1: one Duplicate cause for the
    second interface and no other cause. *)
Lemma scenarioSpec_causes (isPrintWide : Z → bool) :
  admitter.validateNetworksAssignedToInterfaces specPath scenarioSpec = [] ∧
  admitter.validateInterfacesAssignedToNetworks specPath scenarioSpec = [] ∧
  admitter.validateNetworkNameUnique isPrintWide specPath scenarioSpec = [] ∧
  admitter.validateInterfaceNameUnique specPath scenarioSpec
  = [metav1.mkCause metav1.CauseTypeFieldValueDuplicate
       "Only one interface can be connected to one specific network"
       "spec.domain.devices.interfaces[1].name"] ∧
  admitter.validateInterfacesFields hwutil.ParsePciAddress specPath scenarioSpec
  = Some [].
Proof. repeat split; reflexivity. Qed.

Lemma sampleSpec_cross_reference :
  admitter.validateNetworksAssignedToInterfaces specPath sampleSpec
  = [metav1.mkCause metav1.CauseTypeFieldValueRequired
       "spec.networks[1].name 'net2' not found." "spec.networks[1].name"] ∧
  admitter.validateInterfacesAssignedToNetworks [] sampleSpec
  = [metav1.mkCause metav1.CauseTypeFieldValueInvalid
       "domain.devices.interfaces[2].name 'eth 0' not found."
       "domain.devices.interfaces[2].name"].
Proof. split; reflexivity. Qed.

Lemma sampleSpec_fields :
  admitter.validateInterfacesFields hwutil.ParsePciAddress specPath sampleSpec
  = Some [modelCause specPath 1
            (v1.Interface.mk "net1" "banana" "not-a-mac" "zz:00:00.0");
          admitter.malformedMacCause specPath 1
            (v1.Interface.mk "net1" "banana" "not-a-mac" "zz:00:00.0");
          pciCause specPath 1
            (v1.Interface.mk "net1" "banana" "not-a-mac" "zz:00:00.0");
          nameFormatCause specPath 2;
          admitter.tooLongMacCause specPath 2
            (v1.Interface.mk "eth 0" "virtio" "02:00:5e:10:00:00:00:01"
               "0000:00:1f.2")].
Proof. reflexivity. Qed.

(** ** Further properties of the checks *)

(** *** When the name checks return no cause *)

Lemma filter_nil_iff {A : Type} (P : A → Prop) `{∀ x, Decision (P x)}
    (l : list A) :
  filter P l = [] ↔ ∀ x, x ∈ l → ¬ P x.
Proof.
  split; [|apply filter_none].
  intros Hnil x Hx HP.
  assert (x ∈ filter P l) as Hin by (by apply list_elem_of_filter).
  rewrite Hnil in Hin. by apply elem_of_nil in Hin.
Qed.

Lemma fmap_nil_inv_iff {A B : Type} (f : A → B) (l : list A) :
  f <$> l = [] ↔ l = [].
Proof. split; [apply fmap_nil_inv|by intros ->]. Qed.

Lemma elem_of_indexed_snd {A : Type} (l : list A) x :
  x ∈ l ↔ ∃ p, p ∈ indexed l ∧ p.2 = x.
Proof.
  rewrite <- (indexed_from_snd 0 l) at 1. fold (indexed l).
  rewrite list_elem_of_fmap. naive_solver.
Qed.

Lemma filter_absent_nil_iff {A : Type} (key : A → string)
    (names : list string) (l : list A) :
  filter (λ p : Z * A, key p.2 ∉ names) (indexed l) = []
  ↔ ∀ n, n ∈ key <$> l → n ∈ names.
Proof.
  rewrite filter_nil_iff. split.
  - intros Hall n (x & -> & Hx)%list_elem_of_fmap.
    apply elem_of_indexed_snd in Hx as (p & Hp & <-).
    specialize (Hall p Hp). by apply dec_stable in Hall.
  - intros Hall p Hp Hnot. apply Hnot, Hall.
    apply list_elem_of_fmap. exists p.2. split; [done|].
    apply elem_of_indexed_snd. eauto.
Qed.

Lemma repeats_after_nil_l names : repeats names = repeats_after [] names.
Proof. reflexivity. Qed.

Lemma repeats_after_cons pre x suf :
  repeats_after pre (x :: suf)
  = (if decide (x ∈ pre) then [(Z.of_nat (length pre), x)] else [])
    ++ repeats_after (pre ++ [x]) suf.
Proof.
  unfold repeats_after. cbn [indexed_from]. rewrite filter_cons. cbn [fst snd].
  rewrite Nat2Z.id, take_app_length.
  replace (Z.of_nat (length pre) + 1)%Z
    with (Z.of_nat (length (pre ++ [x]))) by (rewrite length_app; simpl; lia).
  rewrite <- (app_assoc pre [x] suf). simpl.
  by destruct (decide (x ∈ pre)).
Qed.

Lemma repeats_after_nil_iff pre suf :
  repeats_after pre suf = [] ↔ NoDup suf ∧ ∀ x, x ∈ suf → x ∉ pre.
Proof.
  revert pre. induction suf as [|x suf IH]; intros pre.
  - split; [|done]. intros _. split; [constructor|].
    by intros x ?%elem_of_nil.
  - rewrite repeats_after_cons, NoDup_cons.
    destruct (decide (x ∈ pre)) as [Hin|Hin]; simpl.
    + split; [done|]. intros [_ Hall]. exfalso. apply (Hall x); [left|done].
    + rewrite IH. split.
      * intros [Hnd Hall]. split; [split; [|done]|].
        -- intros Hx. apply (Hall x Hx). apply elem_of_app. right. left.
        -- intros y [->|Hy]%elem_of_cons; [done|].
           intros Hpre. apply (Hall y Hy). apply elem_of_app. by left.
      * intros [[Hx Hnd] Hall]. split; [done|].
        intros y Hy [Hpre|Hyx]%elem_of_app.
        -- apply (Hall y); [by right|done].
        -- apply list_elem_of_singleton in Hyx as ->. done.
Qed.

Lemma repeats_nil_iff names : repeats names = [] ↔ NoDup names.
Proof.
  rewrite repeats_after_nil_l, repeats_after_nil_iff. split.
  - by intros [? _].
  - intros Hnd. split; [done|]. by intros x _ ?%elem_of_nil.
Qed.

Lemma repeats_after_length pre suf :
  (length (repeats_after pre suf)
   + size (list_to_set (pre ++ suf) : gset string)
   = length suf + size (list_to_set pre : gset string))%nat.
Proof.
  revert pre. induction suf as [|x suf IH]; intros pre.
  - by rewrite app_nil_r.
  - rewrite repeats_after_cons, length_app, (cons_middle x pre suf), app_assoc.
    specialize (IH (pre ++ [x])). rewrite list_to_set_snoc_L in IH.
    destruct (decide (x ∈ pre)) as [Hin|Hin]; simpl.
    + assert (list_to_set pre ∪ {[x]} = (list_to_set pre : gset string)) as Heq
        by set_solver.
      rewrite Heq in IH. lia.
    + rewrite size_union, size_singleton in IH by set_solver. lia.
Qed.

Lemma repeats_length names :
  (length (repeats names) + size (list_to_set names : gset string)
   = length names)%nat.
Proof.
  pose proof (repeats_after_length [] names) as Hn.
  change (length (repeats names) + size (list_to_set names : gset string)
          = length names + size (∅ : gset string))%nat in Hn.
  rewrite size_empty in Hn. lia.
Qed.

(** X3.  A uniqueness check reports every entry but one per distinct name:
    the number of causes and the number of distinct names add up to the
    length of the list. *)
Theorem X3_unique_count (isPrintWide : Z → bool) (field : k8sfield.Path)
    (spec : v1.VirtualMachineInstanceSpec) :
  (length (admitter.validateNetworkNameUnique isPrintWide field spec)
   + size (list_to_set (networkNames spec) : gset string)
   = length (v1.Networks spec))%nat
  ∧ (length (admitter.validateInterfaceNameUnique field spec)
     + size (list_to_set (interfaceNames spec) : gset string)
     = length (specInterfaces spec))%nat.
Proof.
  rewrite validateNetworkNameUnique_repeats, validateInterfaceNameUnique_repeats.
  rewrite !length_fmap.
  pose proof (repeats_length (networkNames spec)) as Hn.
  pose proof (repeats_length (interfaceNames spec)) as Hi.
  assert (length (networkNames spec) = length (v1.Networks spec)) as Hln
    by apply length_fmap.
  assert (length (interfaceNames spec) = length (specInterfaces spec)) as Hli
    by apply length_fmap.
  lia.
Qed.

(** X1.  Each cross-reference check returns no cause exactly when the
    names it walks are all found on the other side. *)
Theorem X1_cross_reference_empty_iff (field : k8sfield.Path)
    (spec : v1.VirtualMachineInstanceSpec) :
  (admitter.validateNetworksAssignedToInterfaces field spec = []
   ↔ ∀ n, n ∈ networkNames spec → n ∈ interfaceNames spec)
  ∧ (admitter.validateInterfacesAssignedToNetworks field spec = []
     ↔ ∀ n, n ∈ interfaceNames spec → n ∈ networkNames spec).
Proof.
  rewrite validateNetworksAssignedToInterfaces_filter,
    validateInterfacesAssignedToNetworks_filter, !fmap_nil_inv_iff.
  split.
  - apply (filter_absent_nil_iff v1.Network.Name).
  - apply (filter_absent_nil_iff v1.Interface.Name).
Qed.

(** X2.  A uniqueness check returns no cause exactly when the names it
    walks are pairwise distinct. *)
Theorem X2_unique_empty_iff (isPrintWide : Z → bool) (field : k8sfield.Path)
    (spec : v1.VirtualMachineInstanceSpec) :
  (admitter.validateNetworkNameUnique isPrintWide field spec = []
   ↔ NoDup (networkNames spec))
  ∧ (admitter.validateInterfaceNameUnique field spec = []
     ↔ NoDup (interfaceNames spec)).
Proof.
  rewrite validateNetworkNameUnique_repeats, validateInterfaceNameUnique_repeats.
  by rewrite !fmap_nil_inv_iff, !repeats_nil_iff.
Qed.

(** X4.  The four name checks return no cause together exactly when the
    network names are pairwise distinct and the interface names are the
    same names in some order. *)
Theorem X4_name_checks_empty_iff (isPrintWide : Z → bool)
    (field : k8sfield.Path) (spec : v1.VirtualMachineInstanceSpec) :
  admitter.validateNetworksAssignedToInterfaces field spec = [] ∧
  admitter.validateInterfacesAssignedToNetworks field spec = [] ∧
  admitter.validateNetworkNameUnique isPrintWide field spec = [] ∧
  admitter.validateInterfaceNameUnique field spec = []
  ↔ NoDup (networkNames spec) ∧ interfaceNames spec ≡ₚ networkNames spec.
Proof.
  rewrite validateNetworksAssignedToInterfaces_filter,
    validateInterfacesAssignedToNetworks_filter,
    validateNetworkNameUnique_repeats, validateInterfaceNameUnique_repeats.
  rewrite !fmap_nil_inv_iff, !repeats_nil_iff.
  rewrite (filter_absent_nil_iff v1.Network.Name),
    (filter_absent_nil_iff v1.Interface.Name).
  fold (networkNames spec) (interfaceNames spec).
  split.
  - intros (Hni & Hin & Hn & Hi). split; [done|].
    apply NoDup_Permutation; [done|done|]. split; auto.
  - intros [Hn Hperm]. split; [|split; [|split; [done|]]].
    + intros n Hin. by rewrite Hperm.
    + intros n Hin. by rewrite <- Hperm.
    + by rewrite Hperm.
Qed.

(** *** Which MAC addresses pass *)

Lemma set_index_length hw i b hw' :
  net.set_index hw i b = Some hw' → length hw' = length hw.
Proof.
  unfold net.set_index. destruct (decide _); [|done].
  intros [= <-]. apply length_insert.
Qed.

Lemma colon_loop_length s sep rem x i hw hw' :
  net.colon_loop s sep rem x i hw = Some (Some hw') → length hw' = length hw.
Proof.
  revert x i hw. induction rem as [|rem IH]; intros x i hw; simpl.
  - by intros [= ->].
  - destruct (gostring.slice_from s x) as [sub|]; simpl; [|done].
    destruct (net.xtoi2 sub sep) as [[b ok]|]; simpl; [|done].
    destruct (net.set_index hw i b) as [hw1|] eqn:Hset; simpl; [|done].
    destruct ok; [|done].
    intros Hloop%IH. rewrite Hloop. by eapply set_index_length.
Qed.

Lemma dot_loop_length s sep rem x i hw hw' :
  net.dot_loop s sep rem x i hw = Some (Some hw') → length hw' = length hw.
Proof.
  revert x i hw. induction rem as [|rem IH]; intros x i hw; simpl.
  - by intros [= ->].
  - destruct (gostring.slice s x (x + 2)) as [sub1|]; simpl; [|done].
    destruct (net.xtoi2 sub1 zero) as [[b1 ok1]|]; simpl; [|done].
    destruct (net.set_index hw i b1) as [hw1|] eqn:Hset1; simpl; [|done].
    destruct ok1; [|done].
    destruct (gostring.slice_from s (x + 2)) as [sub2|]; simpl; [|done].
    destruct (net.xtoi2 sub2 sep) as [[b2 ok2]|]; simpl; [|done].
    destruct (net.set_index hw1 (i + 1) b2) as [hw2|] eqn:Hset2; simpl; [|done].
    destruct ok2; [|done].
    intros Hloop%IH. rewrite Hloop.
    apply set_index_length in Hset1, Hset2. congruence.
Qed.

(** A successful parse gives 6, 8 or 20 bytes, and the length of the text
    is that of the colon or hyphen form or that of the dotted form of as
    many bytes. *)
Lemma ParseMAC_success s hw :
  net.ParseMAC s = Some (hw, None) →
  (length hw = 6 ∨ length hw = 8 ∨ length hw = 20)%nat ∧
  (gostring.len s + 1 = 3 * Z.of_nat (length hw) ∨
   2 * (gostring.len s + 1) = 5 * Z.of_nat (length hw))%Z.
Proof.
  assert (∀ r n, net.finish s r = (hw, None) →
            (∀ hw', r = Some hw' → length hw' = Z.to_nat n) →
            length hw = Z.to_nat n) as Hfinish.
  { intros [hw'|] n; simpl; [|done]. intros [= ->] Hlen. by apply Hlen. }
  unfold net.ParseMAC.
  destruct (Z.ltb_spec (gostring.len s) 14) as [|Hlen]; [done|].
  destruct (gostring.index s 2) as [c2|]; simpl; [|done].
  destruct (bool_decide (c2 = ":"%char) || bool_decide (c2 = "-"%char)).
  - destruct (Z.eqb_spec (Z.rem (gostring.len s + 1) 3) 0) as [Hrem|];
      simpl; [|done].
    set (n := Z.quot (gostring.len s + 1) 3).
    assert (gostring.len s + 1 = 3 * n)%Z as Hn.
    { pose proof (Z.quot_rem' (gostring.len s + 1) 3). lia. }
    destruct (Z.eqb_spec n 6), (Z.eqb_spec n 8), (Z.eqb_spec n 20);
      simpl; try done;
      (destruct (net.colon_loop s c2 (Z.to_nat n) 0 0
                   (replicate (Z.to_nat n) zero)) as [r|] eqn:Hloop;
       simpl; [|done]; intros [= Hr];
       apply (Hfinish r n) in Hr;
       [lia|intros hw' ->; apply colon_loop_length in Hloop;
            by rewrite length_replicate in Hloop]).
  - destruct (gostring.index s 4) as [c4|]; simpl; [|done].
    destruct (bool_decide (c4 = "."%char)); [|done].
    destruct (Z.eqb_spec (Z.rem (gostring.len s + 1) 5) 0) as [Hrem|];
      simpl; [|done].
    set (n := Z.quot (2 * (gostring.len s + 1)) 5).
    pose proof (Z.quot_rem' (gostring.len s + 1) 5) as Hq.
    set (k := Z.quot (gostring.len s + 1) 5) in Hq.
    assert (gostring.len s + 1 = 5 * k)%Z as Hk by lia.
    assert (n = 2 * k)%Z as Hn.
    { unfold n. rewrite Hk.
      replace (2 * (5 * k))%Z with (2 * k * 5)%Z by lia.
      by rewrite Z.quot_mul. }
    destruct (Z.eqb_spec n 6), (Z.eqb_spec n 8), (Z.eqb_spec n 20);
      simpl; try done;
      (destruct (net.dot_loop s c4 (Z.to_nat (Z.quot n 2)) 0 0
                   (replicate (Z.to_nat n) zero)) as [r|] eqn:Hloop;
       simpl; [|done]; intros [= Hr];
       apply (Hfinish r n) in Hr;
       [lia|intros hw' ->; apply dot_loop_length in Hloop;
            by rewrite length_replicate in Hloop]).
Qed.

Lemma validateMacAddress_nil_iff field idx iface :
  admitter.validateMacAddress field idx iface = Some []
  ↔ v1.Interface.MacAddress iface = "" ∨
    ∃ hw, net.ParseMAC (v1.Interface.MacAddress iface) = Some (hw, None) ∧
          length hw = 6%nat.
Proof.
  split.
  - intros Hv.
    destruct (decide (v1.Interface.MacAddress iface = "")) as [|Hne];
      [by left|right].
    destruct (validateMacAddress_parsed field idx iface Hne)
      as (mac & err & Hparse & _ & Hv').
    rewrite Hv in Hv'. injection Hv' as Hc. symmetry in Hc.
    unfold admitter.checkParsedMac in Hc.
    destruct err as [e|].
    { by destruct (decide (admitter.macLen < length mac)%nat). }
    destruct (decide (admitter.macLen < length mac)%nat) as [|Hle]; [done|].
    exists mac. split; [done|].
    apply ParseMAC_success in Hparse as [Hlen _].
    unfold admitter.macLen in Hle. lia.
  - intros [Hempty|(hw & Hparse & Hlen)].
    + unfold admitter.validateMacAddress. rewrite decide_False; [done|].
      by intros [].
    + unfold admitter.validateMacAddress.
      destruct (decide _); [|done]. rewrite Hparse. simpl.
      rewrite decide_False; [done|]. unfold admitter.macLen. lia.
Qed.

(** X5.  [validateMacAddress] returns no cause exactly when the address is
    empty or [net.ParseMAC] parses it to exactly 6 bytes; an address that
    passes is empty, 17 bytes long (the colon or hyphen form) or 14 bytes
    long (the dotted form). *)
Theorem X5_mac_passes_iff (field : k8sfield.Path) (idx : Z)
    (iface : v1.Interface.t) :
  (admitter.validateMacAddress field idx iface = Some []
   ↔ v1.Interface.MacAddress iface = "" ∨
     ∃ hw, net.ParseMAC (v1.Interface.MacAddress iface) = Some (hw, None) ∧
           length hw = 6%nat)
  ∧ (admitter.validateMacAddress field idx iface = Some [] →
     String.length (v1.Interface.MacAddress iface) = 0%nat ∨
     String.length (v1.Interface.MacAddress iface) = 17%nat ∨
     String.length (v1.Interface.MacAddress iface) = 14%nat).
Proof.
  split; [apply validateMacAddress_nil_iff|].
  intros [->|(hw & Hparse & Hlen)]%validateMacAddress_nil_iff; [by left|].
  apply ParseMAC_success in Hparse as [_ Hs].
  unfold gostring.len in Hs. lia.
Qed.

Lemma X5_mac_passes_iff_witness :
  String.length (v1.Interface.MacAddress (macInterface "0000.5e00.5301")) = 0%nat ∨
  String.length (v1.Interface.MacAddress (macInterface "0000.5e00.5301")) = 17%nat ∨
  String.length (v1.Interface.MacAddress (macInterface "0000.5e00.5301")) = 14%nat.
Proof.
  apply (proj2 (X5_mac_passes_iff specPath 0 (macInterface "0000.5e00.5301"))).
  reflexivity.
Defined.

(** *** When the field-format check returns no cause *)

Lemma validateInterfaceNameFormat_nil_iff field idx iface :
  admitter.validateInterfaceNameFormat field idx iface = Some []
  ↔ v1.Interface.Name iface ≠ "" ∧
    allChars nameChar (v1.Interface.Name iface) = true.
Proof.
  rewrite <- (allChars_ext _ _ _ in_class_code), <- plus_class_all,
    <- MatchString_anchored.
  fold interfaceNamePattern. rewrite validateInterfaceNameFormat_eq.
  by destruct (regexp.MatchString _ _).
Qed.

Lemma validateInterfaceModel_nil_iff field idx iface :
  admitter.validateInterfaceModel field idx iface = []
  ↔ v1.Interface.Model iface = "" ∨ v1.Interface.Model iface ∈ supportedModels.
Proof.
  unfold admitter.validateInterfaceModel.
  destruct (decide (v1.Interface.Model iface ≠ "")) as [Hne|Hempty].
  - destruct (decide (v1.Interface.Model iface ∈ admitter.validInterfaceModels))
      as [Hin|Hin]; rewrite elem_of_validInterfaceModels in Hin.
    + split; auto.
    + split; [done|]. by intros [|].
  - apply dec_stable in Hempty. split; auto.
Qed.

Lemma validatePciAddress_nil_iff ParsePciAddress field idx iface :
  admitter.validatePciAddress ParsePciAddress field idx iface = []
  ↔ v1.Interface.PciAddress iface = "" ∨
    snd (ParsePciAddress (v1.Interface.PciAddress iface)) = None.
Proof.
  unfold admitter.validatePciAddress.
  destruct (decide (v1.Interface.PciAddress iface ≠ "")) as [Hne|Hempty].
  - destruct (snd (ParsePciAddress (v1.Interface.PciAddress iface))).
    + split; [done|]. by intros [|].
    + split; auto.
  - apply dec_stable in Hempty. split; auto.
Qed.

Lemma interfaceCauses_nil_iff ParsePciAddress field p :
  interfaceCauses ParsePciAddress field p = Some []
  ↔ passesFieldChecks ParsePciAddress p.2.
Proof.
  unfold interfaceCauses, passesFieldChecks.
  rewrite <- (validateInterfaceNameFormat_nil_iff field p.1),
    <- (validateInterfaceModel_nil_iff field p.1),
    <- (validateMacAddress_nil_iff field p.1),
    <- (validatePciAddress_nil_iff ParsePciAddress field p.1).
  destruct (admitter.validateInterfaceNameFormat field p.1 p.2) as [nm|];
    simpl; [|by split; [|intros [? _]]].
  destruct (admitter.validateMacAddress field p.1 p.2) as [mac|];
    simpl; [|by split; [|intros (_ & _ & ? & _)]].
  split.
  - intros [= Happ].
    apply app_eq_nil in Happ as [-> Happ].
    apply app_eq_nil in Happ as [-> Happ].
    by apply app_eq_nil in Happ as [-> ->].
  - intros ([= ->] & -> & [= ->] & ->). done.
Qed.

Lemma mapM_concat_nil_iff {A B : Type} (g : A → option (list B)) (l : list A) :
  (λ per, concat per) <$> mapM g l = Some [] ↔ Forall (λ p, g p = Some []) l.
Proof.
  induction l as [|p l IH]; [by split; [constructor|]|].
  rewrite Forall_cons, <- IH. cbn [mapM].
  destruct (g p) as [cs|]; simpl; [|by split; [|intros [? _]]].
  destruct (mapM g l) as [per|]; simpl; [|by split; [|intros [_ ?]]].
  split.
  - intros [= Happ]. by apply app_eq_nil in Happ as [-> ->].
  - intros [[= ->] [= ->]]. done.
Qed.

(** X6.  [validateInterfacesFields] returns no cause exactly when every
    interface passes the four field checks: its name is not empty and made
    of letters, digits, underscores and hyphens, its model is empty or in
    the whitelist, its MAC address is empty or parses to 6 bytes, and its
    PCI address is empty or accepted by the parser. *)
Theorem X6_fields_empty_iff
    (ParsePciAddress : string → list string * option string)
    (field : k8sfield.Path) (spec : v1.VirtualMachineInstanceSpec) :
  admitter.validateInterfacesFields ParsePciAddress field spec = Some []
  ↔ Forall (passesFieldChecks ParsePciAddress) (specInterfaces spec).
Proof.
  rewrite validateInterfacesFields_concat, mapM_concat_nil_iff.
  rewrite <- (indexed_from_snd 0 (specInterfaces spec)) at 2.
  fold (indexed (specInterfaces spec)). rewrite Forall_fmap.
  apply Forall_iff. intros p. apply interfaceCauses_nil_iff.
Qed.

(** *** Where the causes point *)

(** Two texts that end with suffixes of the same length are equal only if
    the suffixes are. *)
Lemma sapp_inj_suffix (a b s1 s2 : string) :
  String.length s1 = String.length s2 → a +:+ s1 = b +:+ s2 → a = b ∧ s1 = s2.
Proof.
  intros Hlen. revert b. induction a as [|x a IH]; intros [|y b] Heq.
  - done.
  - apply (f_equal String.length) in Heq.
    rewrite !length_sapp in Heq. simpl in Heq. lia.
  - apply (f_equal String.length) in Heq.
    rewrite !length_sapp in Heq. simpl in Heq. lia.
  - rewrite !sapp_cons in Heq. injection Heq as -> Heq.
    apply IH in Heq as [-> ->]. done.
Qed.

Lemma networkNameField_inj field i j :
  admitter.networkNameField field i = admitter.networkNameField field j → i = j.
Proof.
  rewrite !networkNameField_render. intros Heq.
  apply String.app_inj, String.app_inj in Heq.
  apply sapp_inj_suffix in Heq as [Heq _]; [|done].
  by apply (inj pretty) in Heq.
Qed.

Lemma ifaceNameField_inj field i j :
  admitter.ifaceField field i "name" = admitter.ifaceField field j "name" → i = j.
Proof.
  rewrite !ifaceField_render by done. intros Heq.
  apply String.app_inj, String.app_inj in Heq.
  apply sapp_inj_suffix in Heq as [Heq _]; [|done].
  by apply (inj pretty) in Heq.
Qed.

Lemma NoDup_indexed_from_fst {A : Type} i (l : list A) :
  NoDup (indexed_from i l).*1.
Proof.
  revert i. induction l as [|x l IH]; intros i; simpl; [constructor|].
  apply NoDup_cons. split; [|apply IH].
  intros (p & Hp & Hin)%list_elem_of_fmap.
  apply elem_of_indexed_from in Hin as [Hle _]. simpl in Hp. lia.
Qed.

Lemma NoDup_fmap_filter {A B : Type} (f : A → B) (P : A → Prop)
    `{∀ x, Decision (P x)} (l : list A) :
  NoDup (f <$> l) → NoDup (f <$> filter P l).
Proof.
  induction l as [|x l IH]; [done|].
  rewrite fmap_cons, NoDup_cons, filter_cons. intros [Hx Hnd].
  destruct (decide (P x)); [|auto].
  rewrite fmap_cons, NoDup_cons. split; [|auto].
  intros (y & Hy & Hin)%list_elem_of_fmap. apply Hx.
  apply list_elem_of_fmap. exists y. split; [done|].
  by apply list_elem_of_filter in Hin as [_ ?].
Qed.

(** The fields of causes built from distinct positions by a rendering that
    tells positions apart are pairwise distinct. *)
Lemma NoDup_fields_of_positions {A : Type} (path : Z → string)
    (mk : Z * A → metav1.StatusCause) (l : list (Z * A)) :
  (∀ i j, path i = path j → i = j) →
  (∀ p, metav1.Field (mk p) = path p.1) →
  NoDup l.*1 →
  NoDup (metav1.Field <$> (mk <$> l)).
Proof.
  intros Hinj Hfield Hnd.
  rewrite <- list_fmap_compose.
  rewrite (list_fmap_ext _ (path ∘ fst) l) by (intros ? p _; apply Hfield).
  rewrite list_fmap_compose.
  apply NoDup_fmap_2_strong; [|done].
  intros i j _ _. apply Hinj.
Qed.

(** X7.  In the output of each of the four name checks no two causes have
    the same field path: each cause points at an entry of its own. *)
Theorem X7_name_causes_distinct_fields (isPrintWide : Z → bool)
    (field : k8sfield.Path) (spec : v1.VirtualMachineInstanceSpec) :
  NoDup (metav1.Field
         <$> admitter.validateNetworksAssignedToInterfaces field spec)
  ∧ NoDup (metav1.Field
           <$> admitter.validateInterfacesAssignedToNetworks field spec)
  ∧ NoDup (metav1.Field
           <$> admitter.validateNetworkNameUnique isPrintWide field spec)
  ∧ NoDup (metav1.Field <$> admitter.validateInterfaceNameUnique field spec).
Proof.
  rewrite validateNetworksAssignedToInterfaces_filter,
    validateInterfacesAssignedToNetworks_filter,
    validateNetworkNameUnique_repeats, validateInterfaceNameUnique_repeats.
  split; [|split; [|split]].
  - apply (NoDup_fields_of_positions (admitter.networkNameField field));
      [apply networkNameField_inj|done|].
    apply NoDup_fmap_filter, NoDup_indexed_from_fst.
  - apply (NoDup_fields_of_positions (λ i, admitter.ifaceField field i "name"));
      [apply ifaceNameField_inj|done|].
    apply NoDup_fmap_filter, NoDup_indexed_from_fst.
  - apply (NoDup_fields_of_positions (admitter.networkNameField field));
      [apply networkNameField_inj|done|].
    apply NoDup_fmap_filter, NoDup_indexed_from_fst.
  - apply (NoDup_fields_of_positions (λ i, admitter.ifaceField field i "name"));
      [apply ifaceNameField_inj|done|].
    apply NoDup_fmap_filter, NoDup_indexed_from_fst.
Qed.

Lemma last_char_sapp (a s : string) :
  s ≠ "" → last_char (a +:+ s) = last_char s.
Proof.
  intros Hs. induction a as [|x a IH]; [done|].
  rewrite sapp_cons. cbn [last_char]. rewrite IH.
  destruct (a +:+ s) eqn:Heq; [|done].
  apply sapp_eq_nil in Heq as [_ ->]. done.
Qed.

Lemma ifaceField_inj field i j leaf1 leaf2 :
  leaf1 ∈ fieldLeaves → leaf2 ∈ fieldLeaves →
  admitter.ifaceField field i leaf1 = admitter.ifaceField field j leaf2 →
  i = j ∧ leaf1 = leaf2.
Proof.
  unfold fieldLeaves. rewrite !elem_of_cons, !elem_of_nil.
  intros Hl1 Hl2.
  assert (leaf1 ≠ "" ∧ leaf2 ≠ "") as [Hne1 Hne2]
    by (split; intros ->; naive_solver).
  rewrite !ifaceField_render by done. intros Heq.
  apply String.app_inj, String.app_inj in Heq.
  assert (leaf1 = leaf2) as <-.
  { destruct Hl1 as [->|[->|[->|[->|[]]]]], Hl2 as [->|[->|[->|[->|[]]]]];
      try done;
      try (apply (f_equal last_char) in Heq;
           rewrite !last_char_sapp in Heq by done; discriminate);
      by apply sapp_inj_suffix in Heq as [_ [=]]. }
  split; [|done].
  apply sapp_inj_suffix in Heq as [Heq _]; [|done].
  by apply (inj pretty) in Heq.
Qed.

(** The MAC check returns no cause or one cause. *)
Lemma validateMacAddress_shape field idx iface causes :
  admitter.validateMacAddress field idx iface = Some causes →
  causes = [] ∨ causes = [admitter.malformedMacCause field idx iface] ∨
  causes = [admitter.tooLongMacCause field idx iface].
Proof.
  intros Hv.
  destruct (decide (v1.Interface.MacAddress iface ≠ "")) as [Hne|Hempty].
  - destruct (validateMacAddress_parsed field idx iface Hne)
      as (mac & err & _ & Hnil & Hv').
    rewrite Hv in Hv'. injection Hv' as ->.
    unfold admitter.checkParsedMac. destruct err as [e|].
    + rewrite Hnil by done. simpl. auto.
    + destruct (decide _); simpl; auto.
  - unfold admitter.validateMacAddress in Hv.
    rewrite decide_False in Hv by done. injection Hv as <-. auto.
Qed.

(** The causes of one interface point at distinct leaves of its entry, in
    the order of [fieldLeaves]. *)
Lemma interfaceCauses_fields ParsePciAddress field p cs :
  interfaceCauses ParsePciAddress field p = Some cs →
  ∃ leaves, sublist leaves fieldLeaves ∧
            metav1.Field <$> cs = admitter.ifaceField field p.1 <$> leaves.
Proof.
  unfold interfaceCauses. rewrite validateInterfaceNameFormat_eq. simpl.
  destruct (admitter.validateMacAddress field p.1 p.2) as [mac|] eqn:Hmac;
    simpl; [|done].
  intros [= <-]. rewrite !fmap_app.
  assert (∃ l1, sublist l1 ["name"] ∧
            metav1.Field <$> (if regexp.MatchString interfaceNamePattern
                                   (v1.Interface.Name p.2)
                              then [] else [nameFormatCause field p.1])
            = admitter.ifaceField field p.1 <$> l1) as (l1 & Hs1 & ->).
  { destruct (regexp.MatchString _ _);
      [exists []|exists ["name"]]; split; by repeat constructor. }
  assert (∃ l2, sublist l2 ["model"] ∧
            metav1.Field <$> admitter.validateInterfaceModel field p.1 p.2
            = admitter.ifaceField field p.1 <$> l2) as (l2 & Hs2 & ->).
  { unfold admitter.validateInterfaceModel.
    destruct (decide _); [destruct (decide _)|];
      [exists []|exists ["model"]|exists []]; split; by repeat constructor. }
  assert (∃ l3, sublist l3 ["macAddress"] ∧
            metav1.Field <$> mac = admitter.ifaceField field p.1 <$> l3)
    as (l3 & Hs3 & ->).
  { apply validateMacAddress_shape in Hmac as [->|[->| ->]];
      [exists []|exists ["macAddress"]|exists ["macAddress"]];
      split; by repeat constructor. }
  assert (∃ l4, sublist l4 ["pciAddress"] ∧
            metav1.Field
            <$> admitter.validatePciAddress ParsePciAddress field p.1 p.2
            = admitter.ifaceField field p.1 <$> l4) as (l4 & Hs4 & ->).
  { unfold admitter.validatePciAddress.
    destruct (decide _); [destruct (snd (ParsePciAddress _))|];
      [exists ["pciAddress"]|exists []|exists []];
      split; by repeat constructor. }
  exists (l1 ++ l2 ++ l3 ++ l4). rewrite !fmap_app. split; [|done].
  change fieldLeaves
    with (["name"] ++ ["model"] ++ ["macAddress"] ++ ["pciAddress"]).
  by repeat apply sublist_app.
Qed.

(** What the field-format check returns on the interfaces counted from
    [i]: every cause points at a leaf of an entry of the list, and no two
    causes point at the same leaf of the same entry. *)
Lemma fields_causes_located ParsePciAddress field i
    (l : list v1.Interface.t) per :
  mapM (interfaceCauses ParsePciAddress field) (indexed_from i l) = Some per →
  NoDup (metav1.Field <$> concat per) ∧
  Forall (λ c, ∃ j leaf, (i ≤ j < i + Z.of_nat (length l))%Z ∧
                         leaf ∈ fieldLeaves ∧
                         metav1.Field c = admitter.ifaceField field j leaf)
    (concat per).
Proof.
  revert i per. induction l as [|x l IH]; intros i per; cbn [indexed_from mapM].
  - intros [= <-]. split; constructor.
  - destruct (interfaceCauses ParsePciAddress field (i, x)) as [cs|] eqn:Hcs;
      simpl; [|done].
    destruct (mapM (interfaceCauses ParsePciAddress field)
                (indexed_from (i + 1) l)) as [per'|] eqn:Hper; simpl; [|done].
    intros [= <-]. destruct (IH _ _ Hper) as [Hnd Hall].
    apply interfaceCauses_fields in Hcs as (leaves & Hsub & Hfields).
    assert (NoDup fieldLeaves) as Hleaves.
    { unfold fieldLeaves. repeat (apply NoDup_cons; split;
        [rewrite ?elem_of_cons, elem_of_nil; naive_solver|]). constructor. }
    assert (∀ leaf, leaf ∈ leaves → leaf ∈ fieldLeaves) as Hin
      by (intros leaf Hleaf; by eapply elem_of_sublist).
    simpl. rewrite fmap_app. split.
    + apply NoDup_app. split; [|split; [|done]].
      * rewrite Hfields. apply NoDup_fmap_2_strong.
        -- intros l1 l2 Hl1 Hl2 Heq.
           by apply ifaceField_inj in Heq as [_ ?]; auto.
        -- by eapply sublist_NoDup.
      * intros f Hf (c & -> & Hc)%list_elem_of_fmap.
        rewrite Hfields in Hf.
        apply list_elem_of_fmap in Hf as (leaf & Heq & Hleaf).
        rewrite Forall_forall in Hall.
        destruct (Hall c Hc) as (j & leaf' & Hj & Hleaf' & Hfc).
        rewrite Hfc in Heq. apply ifaceField_inj in Heq as [-> _]; auto.
        simpl in Hj. lia.
    + apply Forall_app. split.
      * apply Forall_forall. intros c Hc.
        apply (list_elem_of_fmap_2 metav1.Field) in Hc. rewrite Hfields in Hc.
        apply list_elem_of_fmap in Hc as (leaf & Heq & Hleaf).
        exists i, leaf. simpl in Heq. split; [lia|auto].
      * eapply Forall_impl; [exact Hall|].
        intros c (j & leaf & Hj & Hleaf & Hfc). exists j, leaf.
        split; [lia|auto].
Qed.

Lemma validateInterfacesFields_located ParsePciAddress field spec :
  ∃ causes,
    admitter.validateInterfacesFields ParsePciAddress field spec = Some causes ∧
    NoDup (metav1.Field <$> causes) ∧
    Forall (λ c, ∃ j leaf,
              (0 ≤ j < Z.of_nat (length (specInterfaces spec)))%Z ∧
              leaf ∈ fieldLeaves ∧
              metav1.Field c = admitter.ifaceField field j leaf) causes.
Proof.
  rewrite validateInterfacesFields_concat.
  destruct (mapM_interfaceCauses_is_Some ParsePciAddress field
              (indexed (specInterfaces spec))) as (per & Hper & _).
  rewrite Hper. exists (concat per). split; [done|].
  by apply fields_causes_located in Hper.
Qed.

(** X8.  In the output of [validateInterfacesFields] no two causes have the
    same field path: an interface gets at most one cause for its name, one
    for its model, one for its MAC address and one for its PCI address. *)
Theorem X8_fields_causes_distinct_fields
    (ParsePciAddress : string → list string * option string)
    (field : k8sfield.Path) (spec : v1.VirtualMachineInstanceSpec) :
  ∃ causes,
    admitter.validateInterfacesFields ParsePciAddress field spec = Some causes ∧
    NoDup (metav1.Field <$> causes).
Proof.
  destruct (validateInterfacesFields_located ParsePciAddress field spec)
    as (causes & Hv & Hnd & _).
  eauto.
Qed.

Lemma indexed_position_in_range {A : Type} (l : list A) (p : Z * A) :
  p ∈ indexed l → (0 ≤ p.1 < Z.of_nat (length l))%Z.
Proof.
  intros [Hle Hl]%elem_of_indexed_from.
  apply lookup_lt_Some in Hl. lia.
Qed.

Lemma Forall_fmap_filter_indexed {A : Type} (mk : Z * A → metav1.StatusCause)
    (P : Z * A → Prop) `{∀ p, Decision (P p)} (path : Z → string)
    (l : list A) :
  (∀ p, metav1.Field (mk p) = path p.1) →
  Forall (λ c, ∃ i, (0 ≤ i < Z.of_nat (length l))%Z ∧ metav1.Field c = path i)
    (mk <$> filter P (indexed l)).
Proof.
  intros Hfield. apply Forall_fmap, Forall_forall.
  intros p [_ Hp]%list_elem_of_filter. exists p.1.
  split; [by apply indexed_position_in_range|apply Hfield].
Qed.

(** X9.  Every cause points inside the spec, under the caller's prefix: the
    field of a cause of the network-direction and network-uniqueness
    checks is the networks[i].name path of a position i of the network
    list; the field of a cause of the interface-direction and
    interface-uniqueness checks is the interfaces[i].name path of a
    position i of the interface list; the field of a cause of the
    field-format check is the name, model, macAddress or pciAddress path of
    a position of the interface list. *)
Theorem X9_causes_point_inside (isPrintWide : Z → bool)
    (ParsePciAddress : string → list string * option string)
    (field : k8sfield.Path) (spec : v1.VirtualMachineInstanceSpec) :
  Forall (λ c, ∃ i, (0 ≤ i < Z.of_nat (length (v1.Networks spec)))%Z ∧
                    metav1.Field c = networkPath field i)
    (admitter.validateNetworksAssignedToInterfaces field spec
     ++ admitter.validateNetworkNameUnique isPrintWide field spec)
  ∧ Forall (λ c, ∃ i, (0 ≤ i < Z.of_nat (length (specInterfaces spec)))%Z ∧
                      metav1.Field c = interfacePath field i "name")
      (admitter.validateInterfacesAssignedToNetworks field spec
       ++ admitter.validateInterfaceNameUnique field spec)
  ∧ ∃ causes,
      admitter.validateInterfacesFields ParsePciAddress field spec
      = Some causes ∧
      Forall (λ c, ∃ i leaf,
                (0 ≤ i < Z.of_nat (length (specInterfaces spec)))%Z ∧
                leaf ∈ fieldLeaves ∧
                metav1.Field c = interfacePath field i leaf) causes.
Proof.
  rewrite validateNetworksAssignedToInterfaces_filter,
    validateInterfacesAssignedToNetworks_filter,
    validateNetworkNameUnique_repeats, validateInterfaceNameUnique_repeats.
  unfold repeats.
  assert (length (networkNames spec) = length (v1.Networks spec)) as Hln
    by apply length_fmap.
  assert (length (interfaceNames spec) = length (specInterfaces spec)) as Hli
    by apply length_fmap.
  split; [|split].
  - apply Forall_app. split.
    + apply (Forall_fmap_filter_indexed _ _ (networkPath field)).
      intros p. apply networkNameField_render.
    + rewrite <- Hln.
      apply (Forall_fmap_filter_indexed _ _ (networkPath field)).
      intros p. apply networkNameField_render.
  - apply Forall_app. split.
    + apply (Forall_fmap_filter_indexed _ _
               (λ i, interfacePath field i "name")).
      intros p. by apply ifaceField_render.
    + rewrite <- Hli.
      apply (Forall_fmap_filter_indexed _ _
               (λ i, interfacePath field i "name")).
      intros p. by apply ifaceField_render.
  - destruct (validateInterfacesFields_located ParsePciAddress field spec)
      as (causes & Hv & _ & Hall).
    exists causes. split; [done|].
    eapply Forall_impl; [exact Hall|].
    intros c (j & leaf & Hj & Hleaf & ->). exists j, leaf.
    split; [done|]. split; [done|].
    apply ifaceField_render. intros ->.
    unfold fieldLeaves in Hleaf.
    rewrite !elem_of_cons, elem_of_nil in Hleaf. naive_solver.
Qed.

(** *** The prefix only labels the causes *)

Lemma interfaceCauses_types ParsePciAddress field field' i j iface :
  fmap (M:=list) metav1.Type_
    <$> interfaceCauses ParsePciAddress field (i, iface)
  = fmap (M:=list) metav1.Type_
    <$> interfaceCauses ParsePciAddress field' (j, iface).
Proof.
  assert (metav1.Type_
          <$> (if regexp.MatchString interfaceNamePattern (v1.Interface.Name iface)
               then [] else [nameFormatCause field i])
          = metav1.Type_
            <$> (if regexp.MatchString interfaceNamePattern
                      (v1.Interface.Name iface)
                 then [] else [nameFormatCause field' j])) as Hn
    by (by destruct (regexp.MatchString _ _)).
  assert (metav1.Type_ <$> admitter.validateInterfaceModel field i iface
          = metav1.Type_ <$> admitter.validateInterfaceModel field' j iface)
    as Hm.
  { unfold admitter.validateInterfaceModel. by repeat destruct (decide _). }
  assert (metav1.Type_
          <$> admitter.validatePciAddress ParsePciAddress field i iface
          = metav1.Type_
            <$> admitter.validatePciAddress ParsePciAddress field' j iface)
    as Hp.
  { unfold admitter.validatePciAddress. destruct (decide _); [|done].
    by destruct (snd (ParsePciAddress _)). }
  assert (fmap (M:=list) metav1.Type_
          <$> admitter.validateMacAddress field i iface
          = fmap (M:=list) metav1.Type_
            <$> admitter.validateMacAddress field' j iface) as Hmac.
  { unfold admitter.validateMacAddress. destruct (decide _); [|done].
    destruct (net.ParseMAC _) as [[mac err]|]; simpl; [|done].
    unfold admitter.checkParsedMac. by destruct err, (decide _). }
  unfold interfaceCauses. rewrite !validateInterfaceNameFormat_eq.
  cbn [mbind option_bind fst snd].
  destruct (admitter.validateMacAddress field i iface) as [mac|],
    (admitter.validateMacAddress field' j iface) as [mac'|];
    simpl in Hmac; try done.
  injection Hmac as Hmac. simpl.
  by rewrite !fmap_app, Hn, Hm, Hmac, Hp.
Qed.

Lemma mapM_interfaceCauses_types ParsePciAddress field field' i j
    (l : list v1.Interface.t) :
  (λ per, metav1.Type_ <$> concat per)
    <$> mapM (interfaceCauses ParsePciAddress field) (indexed_from i l)
  = (λ per, metav1.Type_ <$> concat per)
    <$> mapM (interfaceCauses ParsePciAddress field') (indexed_from j l).
Proof.
  revert i j. induction l as [|x l IH]; intros i j; [done|].
  cbn [indexed_from mapM].
  pose proof (interfaceCauses_types ParsePciAddress field field' i j x) as Hx.
  specialize (IH (i + 1)%Z (j + 1)%Z).
  destruct (interfaceCauses ParsePciAddress field (i, x)) as [cs|],
    (interfaceCauses ParsePciAddress field' (j, x)) as [cs'|];
    simpl in *; try done.
  injection Hx as Hx.
  destruct (mapM _ (indexed_from (i + 1) l)) as [per|],
    (mapM _ (indexed_from (j + 1) l)) as [per'|]; simpl in *; try done.
  injection IH as IH. by rewrite !fmap_app, Hx, IH.
Qed.

(** X10.  The prefix only labels the causes: on the same spec, two
    prefixes give cause lists with the same kinds in the same order, and so
    of the same length, for each of the five checks. *)
Theorem X10_kinds_independent_of_prefix (isPrintWide : Z → bool)
    (ParsePciAddress : string → list string * option string)
    (field field' : k8sfield.Path) (spec : v1.VirtualMachineInstanceSpec) :
  metav1.Type_ <$> admitter.validateNetworksAssignedToInterfaces field spec
  = metav1.Type_ <$> admitter.validateNetworksAssignedToInterfaces field' spec
  ∧ metav1.Type_ <$> admitter.validateInterfacesAssignedToNetworks field spec
    = metav1.Type_ <$> admitter.validateInterfacesAssignedToNetworks field' spec
  ∧ metav1.Type_ <$> admitter.validateNetworkNameUnique isPrintWide field spec
    = metav1.Type_ <$> admitter.validateNetworkNameUnique isPrintWide field' spec
  ∧ metav1.Type_ <$> admitter.validateInterfaceNameUnique field spec
    = metav1.Type_ <$> admitter.validateInterfaceNameUnique field' spec
  ∧ fmap (M:=list) metav1.Type_
      <$> admitter.validateInterfacesFields ParsePciAddress field spec
    = fmap (M:=list) metav1.Type_
      <$> admitter.validateInterfacesFields ParsePciAddress field' spec.
Proof.
  rewrite !validateNetworksAssignedToInterfaces_filter,
    !validateInterfacesAssignedToNetworks_filter,
    !validateNetworkNameUnique_repeats, !validateInterfaceNameUnique_repeats,
    !validateInterfacesFields_concat.
  rewrite <- !list_fmap_compose, <- !option_fmap_compose.
  repeat split; try done.
  apply mapM_interfaceCauses_types.
Qed.

(** *** Adding entries on the other side, and counting entries *)

Lemma filter_sublist_impl {A : Type} (P Q : A → Prop)
    `{∀ x, Decision (P x)} `{∀ x, Decision (Q x)} (l : list A) :
  (∀ x, P x → Q x) → filter P l `sublist_of` filter Q l.
Proof.
  intros HPQ. induction l as [|x l IH]; [done|].
  rewrite !filter_cons.
  destruct (decide (P x)) as [HP|HP], (decide (Q x)) as [HQ|HQ].
  - by apply sublist_skip.
  - destruct HQ. auto.
  - by apply sublist_cons.
  - done.
Qed.

(** X11.  Declaring more names on the other side never adds a cause to a
    cross-reference check: with the same networks and a larger set of
    interface names, the causes of the network-direction check are causes
    it already returned, in the same order; and symmetrically for the
    interface-direction check. *)
Theorem X11_cross_reference_antitone (field : k8sfield.Path)
    (spec spec' : v1.VirtualMachineInstanceSpec) :
  (v1.Networks spec' = v1.Networks spec →
   (∀ n, n ∈ interfaceNames spec → n ∈ interfaceNames spec') →
   admitter.validateNetworksAssignedToInterfaces field spec'
   `sublist_of` admitter.validateNetworksAssignedToInterfaces field spec)
  ∧ (specInterfaces spec' = specInterfaces spec →
     (∀ n, n ∈ networkNames spec → n ∈ networkNames spec') →
     admitter.validateInterfacesAssignedToNetworks field spec'
     `sublist_of` admitter.validateInterfacesAssignedToNetworks field spec).
Proof.
  rewrite !validateNetworksAssignedToInterfaces_filter,
    !validateInterfacesAssignedToNetworks_filter.
  split.
  - intros -> Hsub. apply fmap_sublist, filter_sublist_impl.
    intros p Hp Hin. apply Hp, Hsub, Hin.
  - intros -> Hsub. apply fmap_sublist, filter_sublist_impl.
    intros p Hp Hin. apply Hp, Hsub, Hin.
Qed.

Lemma X11_cross_reference_antitone_witness :
  admitter.validateNetworksAssignedToInterfaces specPath repairedSpec
  `sublist_of` admitter.validateNetworksAssignedToInterfaces specPath
                 danglingSpec.
Proof.
  apply (proj1 (X11_cross_reference_antitone specPath danglingSpec
                  repairedSpec)).
  - reflexivity.
  - intros n. cbn. intros Hn.
    apply list_elem_of_singleton in Hn as ->. left.
Defined.

(** X12.  A spec with more interfaces than networks always gets a cause
    from the interface-direction check or from the interface-uniqueness
    check, and a spec with more networks than interfaces always gets one
    from the network-direction check or from the network-uniqueness check:
    when both checks of a side return no cause, that side has at most as
    many entries as the other. *)
Theorem X12_more_entries_reported (isPrintWide : Z → bool)
    (field : k8sfield.Path) (spec : v1.VirtualMachineInstanceSpec) :
  (admitter.validateInterfacesAssignedToNetworks field spec = [] →
   admitter.validateInterfaceNameUnique field spec = [] →
   length (specInterfaces spec) ≤ length (v1.Networks spec))
  ∧ (admitter.validateNetworksAssignedToInterfaces field spec = [] →
     admitter.validateNetworkNameUnique isPrintWide field spec = [] →
     length (v1.Networks spec) ≤ length (specInterfaces spec)).
Proof.
  rewrite validateNetworksAssignedToInterfaces_filter,
    validateInterfacesAssignedToNetworks_filter,
    validateNetworkNameUnique_repeats, validateInterfaceNameUnique_repeats.
  rewrite !fmap_nil_inv_iff, !repeats_nil_iff.
  rewrite (filter_absent_nil_iff v1.Network.Name),
    (filter_absent_nil_iff v1.Interface.Name).
  fold (networkNames spec) (interfaceNames spec).
  assert (length (networkNames spec) = length (v1.Networks spec)) as <-
    by apply length_fmap.
  assert (length (interfaceNames spec) = length (specInterfaces spec)) as <-
    by apply length_fmap.
  split; intros Hsub Hnd; by apply submseteq_length, NoDup_submseteq.
Qed.

Lemma X12_more_entries_reported_witness :
  length (specInterfaces matchedSpec) ≤ length (v1.Networks matchedSpec).
Proof.
  apply (proj1 (X12_more_entries_reported (λ _, true) specPath matchedSpec)).
  - reflexivity.
  - reflexivity.
Defined.
